(** * Frame-synchronised input dispatch

    A shallow embedding of [shell/common/input_events_unittests.cc]: the
    simulated-input harness [TestSimulatedInputEvents], the two native
    callbacks it installs, the three generators of arrival times and the
    three tests built on them.

    How the terms of the design read on the code:
    - a _sample_ is input event [i]; its arrival time is [delivery_time i];
    - the _sample queue_ is the tail of events not yet handed over, that is
      the event index [i] of the simulation loop;
    - a _tick_ is one iteration [j] of the simulation loop, at time
      [j * frame_time]; [OnTick] is the loop body, which drains the events
      that are due and then signals the frame;
    - the _consumer adapter_ is the pair of shell entry points:
      [DeliverSample] is [ShellTest::DispatchFakePointerData] and
      [BeginFrame] is [ShellTest::PumpOneFrame];
    - the _consumer_ is the script runtime behind them, observed through the
      native callbacks [nativeOnPointerDataPacket] and [nativeOnBeginFrame];
    - the _latch_ is [will_draw_new_frame] ([true] is CLEAR), and the
      _delivery record_ is [events_consumed_at_frame].

    The shell itself is not part of these sources: the harness is embedded
    with the two shell entry points as parameters, and the statements about
    what the harness asks of the shell hold for every shell.  The three
    tests take their shell as a parameter as well; the statements about
    the frames that they record are made on a shell that delays a pending
    packet for the next frame ([HoldOne]), which is modelled, not embedded.

    Two more files of the sources are embedded after the harness: the
    semantics actions, flags and update builder of [lib/ui/semantics.dart],
    and the path functions of [runtime/dart_controller.cc]. *)

From Stdlib Require Import Ascii String.
From Stdlib Require Import ZArith List Bool Lia Sorted.
From Stdlib Require Import Floats.
Import ListNotations.
Local Open Scope Z_scope.
Set Warnings "-inexact-float".

(** ** C++ [int]: 32-bit two's complement *)

Module Int.

Definition min_int : Z := - 2 ^ 31.
Definition max_int : Z := 2 ^ 31 - 1.

Definition in_range (z : Z) : Prop := min_int <= z <= max_int.

(** Reduction of a mathematical result to the 32-bit representation. *)
Definition wrap (z : Z) : Z := (z + 2 ^ 31) mod 2 ^ 32 - 2 ^ 31.

Definition add (a b : Z) : Z := wrap (a + b).
Definition sub (a b : Z) : Z := wrap (a - b).
Definition mul (a b : Z) : Z := wrap (a * b).

(** [a / b] on [int] truncates toward zero.  A zero divisor has no result,
    and neither has [INT_MIN / -1], whose quotient is not an [int]: the
    division instruction traps on both. *)
Definition quot (a b : Z) : option Z :=
  if b =? 0 then None
  else if (a =? min_int) && (b =? -1) then None
  else Some (Z.quot a b).

End Int.

(** ** C++ [double]: IEEE 754 binary64 *)

Module Double.

(** Conversion [int -> double], exact on the whole range of [int]. *)
Definition of_int (z : Z) : float :=
  if z <? 0 then PrimFloat.opp (PrimFloat.of_uint63 (Uint63.of_Z (- z)))
  else PrimFloat.of_uint63 (Uint63.of_Z z).

(** [static_cast<int>(f)]: the fractional part is discarded.  A value that
    does not fit, an infinity or a NaN has no defined conversion; the
    conversion instruction gives [INT_MIN] for all of them. *)
Definition to_int (f : float) : Z :=
  match Prim2SF f with
  | S754_zero _ => 0
  | S754_finite s m e =>
      let v := if 0 <=? e then Z.pos m * 2 ^ e else Z.pos m / 2 ^ (- e) in
      let z := if s then - v else v in
      if (Int.min_int <=? z) && (z <=? Int.max_int) then z else Int.min_int
  | _ => Int.min_int
  end.

End Double.

(** ** The variables captured by the native callbacks (lines 61-64) *)

Record TestState := mkTestState {
  events_consumed_at_frame : list Z;
  will_draw_new_frame : bool;
  events_consumed : Z;
  frame_drawn : Z
}.

(** [events_consumed_at_frame.clear(); will_draw_new_frame = true;
    events_consumed = 0; frame_drawn = 0]. *)
Definition initial_state : TestState :=
  mkTestState [] true 0 0.

(** [v.back() = x].  On an empty vector the C++ is undefined; the list is
    left empty here, and [back_defined] below shows that the callbacks
    never reach that case. *)
Definition set_back (x : Z) (v : list Z) : list Z :=
  match v with
  | [] => []
  | _ :: _ => removelast v ++ [x]
  end.

(** Lines 65-76. *)
Definition nativeOnPointerDataPacket (s : TestState) : TestState :=
  let consumed := Int.add (events_consumed s) 1 in
  if will_draw_new_frame s then
    mkTestState (events_consumed_at_frame s ++ [consumed]) false consumed
                (Int.add (frame_drawn s) 1)
  else
    mkTestState (set_back consumed (events_consumed_at_frame s)) false consumed
                (frame_drawn s).

(** Lines 80-82. *)
Definition nativeOnBeginFrame (s : TestState) : TestState :=
  mkTestState (events_consumed_at_frame s) true (events_consumed s)
              (frame_drawn s).

(** A call of one of the two native entries, and the effect of a sequence
    of such calls on the captured variables. *)
Inductive NativeCall := OnPointerDataPacket | OnBeginFrame.

Definition native (c : NativeCall) : TestState -> TestState :=
  match c with
  | OnPointerDataPacket => nativeOnPointerDataPacket
  | OnBeginFrame => nativeOnBeginFrame
  end.

Definition run_natives (cs : list NativeCall) (s : TestState) : TestState :=
  fold_left (fun s c => native c s) cs s.

Definition is_packet (c : NativeCall) : bool :=
  match c with
  | OnPointerDataPacket => true
  | OnBeginFrame => false
  end.

(** The number of packet callbacks among the calls [cs]. *)
Definition packets (cs : list NativeCall) : Z :=
  Z.of_nat (length (filter is_packet cs)).

(** ** The harness (lines 90-118)

    [W] is everything the two shell entry points can touch: the shell and,
    through the callbacks it runs, the captured variables.  The event and
    frame indices are passed along so that a world can see the simulated
    clock; [ShellTest::DispatchFakePointerData] and
    [ShellTest::PumpOneFrame] themselves take the shell only. *)

Inductive CheckResult :=
| CheckPassed (continuous_frame_count : Z)
| CheckFailed
| CheckUndefined.

(** How a call of [TestSimulatedInputEvents] ends: it returns after the
    simulation, it returns at a failed fatal assertion, or the division of
    line 96 traps (a zero [frame_time], or [INT_MIN / -1]). *)
Inductive Outcome (W : Type) :=
| Completed (w : W)
| AssertionFailed (w : W)
| DivisionByZero
| OutOfFuel.

Arguments Completed {W} w.
Arguments AssertionFailed {W} w.
Arguments DivisionByZero {W}.
Arguments OutOfFuel {W}.

Section Harness.

Context {W : Type}.
Variable DispatchFakePointerData : Z -> W -> W.
Variable PumpOneFrame : Z -> W -> W.
Variable num_events : Z.
Variable base_latency : Z.
Variable delivery_time : Z -> Z.
Variable frame_time : Z.

(** Lines 93-107: the loop that checks the latency model, event by event.
    [k] counts the iterations left, so the loop condition and the counter
    run out together. *)
Fixpoint check_delivery_time (k : nat) (i continuous_frame_count : Z)
  : CheckResult :=
  match k with
  | O => CheckPassed continuous_frame_count
  | S k' =>
      if i <? num_events then
        match Int.quot (Int.sub (delivery_time i) base_latency) frame_time with
        | None => CheckUndefined
        | Some j =>
            let count :=
              if j =? continuous_frame_count
              then Int.add continuous_frame_count 1
              else continuous_frame_count in
            let random_latency :=
              Int.sub (Int.sub (delivery_time i) (Int.mul j frame_time))
                      base_latency in
            if negb (0 <=? random_latency) then CheckFailed
            else if negb (random_latency <? frame_time) then CheckFailed
            else if negb (j <? count) then CheckFailed
            else check_delivery_time k' (Int.add i 1) count
        end
      else CheckPassed continuous_frame_count
  end.

(** Lines 113-116: hand over every event that is due at time [t]. *)
Fixpoint deliver_due (k : nat) (t i : Z) (w : W) : Z * W :=
  match k with
  | O => (i, w)
  | S k' =>
      if (i <? num_events) && (delivery_time i <=? t)
      then deliver_due k' t (Int.add i 1) (DispatchFakePointerData i w)
      else (i, w)
  end.

(** Lines 112-117: the body of the simulation loop, one tick. *)
Definition pump_frame (i j : Z) (w : W) : Z * W :=
  let t := Int.mul j frame_time in
  let '(i', w') := deliver_due (Z.to_nat (num_events - i)) t i w in
  (i', PumpOneFrame j w').

(** Lines 111-118.  The loop ends when every event has been handed over;
    [fuel] bounds the number of frames. *)
Fixpoint simulate (fuel : nat) (i j : Z) (w : W) : option W :=
  if i <? num_events then
    match fuel with
    | O => None
    | S fuel' =>
        let '(i', w') := pump_frame i j w in
        simulate fuel' i' (Int.add j 1) w'
    end
  else Some w.

(** Lines 90-118, from [ASSERT_GE(base_latency, 0)] on.  A failing
    [ASSERT_*] returns from the function at once. *)
Definition TestSimulatedInputEvents (fuel : nat) (w : W) : Outcome W :=
  if negb (0 <=? base_latency) then AssertionFailed w
  else
    match check_delivery_time (Z.to_nat num_events) 0 0 with
    | CheckUndefined => DivisionByZero
    | CheckFailed => AssertionFailed w
    | CheckPassed _ =>
        match simulate fuel 0 0 w with
        | Some w' => Completed w'
        | None => OutOfFuel
        end
    end.

End Harness.

(** ** The calls the harness makes into the shell *)

Inductive ShellCall := Dispatch (i : Z) | Pump (j : Z).

Definition record_dispatch (i : Z) (tr : list ShellCall) : list ShellCall :=
  tr ++ [Dispatch i].

Definition record_pump (j : Z) (tr : list ShellCall) : list ShellCall :=
  tr ++ [Pump j].

(** The harness run against a shell that only records what it is asked. *)
Definition schedule (num_events : Z) (delivery_time : Z -> Z) (frame_time : Z)
  (fuel : nat) : option (list ShellCall) :=
  simulate record_dispatch record_pump num_events delivery_time frame_time
           fuel 0 0 [].

(** ** The shell behind the two entry points

    [ShellTest::DispatchFakePointerData], [ShellTest::PumpOneFrame] and the
    script that they run are not part of these sources.  What the sources
    fix (lines 58-60) is that the captured variables change only through
    the two native callbacks.  A shell is therefore a state of its own
    together with, for each of the two entry points, the native callbacks
    that a call runs. *)

Module ShellTest.

Record Shell := mkShell {
  shell_state : Type;
  shell_start : shell_state;
  packet_callbacks : shell_state -> shell_state * list NativeCall;
  frame_callbacks : shell_state -> shell_state * list NativeCall
}.

(** The entry points as the harness calls them, on the shell and the
    captured variables; the index of the event or frame is not passed to
    the shell. *)
Definition DispatchFakePointerData (shell : Shell) (_ : Z)
  (w : shell_state shell * TestState) : shell_state shell * TestState :=
  let '(s, cs) := packet_callbacks shell (fst w) in
  (s, run_natives cs (snd w)).

Definition PumpOneFrame (shell : Shell) (_ : Z)
  (w : shell_state shell * TestState) : shell_state shell * TestState :=
  let '(s, cs) := frame_callbacks shell (fst w) in
  (s, run_natives cs (snd w)).

End ShellTest.

(** ** A shell that delays a pending packet for the next frame *)

Module HoldOne.

(** Modelled from the spec: the dispatcher behind
    [ShellTest::DispatchFakePointerData] and [ShellTest::PumpOneFrame] is
    not under src/.  Its state, as far as properties 4, 5 and 7 of section 8
    of the design and the comment of line 154 need it: whether a frame
    that has received a packet is in progress, and whether a packet is held
    back for the next frame. *)
Record State := mkState {
  in_progress : bool;
  pending_packet : bool
}.

(** Modelled from the spec: the first packet of a frame goes to the script
    at once; a packet that arrives while a frame is in progress is held
    back, and the packet held before it, if any, goes to the script. *)
Definition dispatch (s : State) : State * list NativeCall :=
  if in_progress s then
    (mkState true true,
     if pending_packet s then [OnPointerDataPacket] else [])
  else (mkState true false, [OnPointerDataPacket]).

(** Modelled from the spec: a frame begins with the begin-frame signal;
    the packet held back follows it (the comment of line 154: a pending
    packet is delayed for the next frame); a frame that finds no packet
    held ends the frame in progress. *)
Definition pump (s : State) : State * list NativeCall :=
  if in_progress s then
    if pending_packet s
    then (mkState true false, [OnBeginFrame; OnPointerDataPacket])
    else (mkState false false, [OnBeginFrame])
  else (s, [OnBeginFrame]).

(** Modelled from the spec: the shell starts with no frame in progress
    and nothing held. *)
Definition shell : ShellTest.Shell :=
  ShellTest.mkShell State (mkState false false) dispatch pump.

End HoldOne.

(** ** Generators and tests (lines 123-233) *)

Module Tests.

(** The vector the caller reads after the call. *)
Definition consumed_at_frame {S : Type} (o : Outcome (S * TestState))
  : list Z :=
  match o with
  | Completed w | AssertionFailed w => events_consumed_at_frame (snd w)
  | _ => []
  end.

(** Result of a test body: every assertion held, or one failed. *)
Inductive Verdict := Pass | Fail | Unfinished.

(** A fatal failure inside [TestSimulatedInputEvents] fails the calling
    test as well. *)
Definition simulated {W : Type} (o : Outcome W) : Verdict :=
  match o with
  | Completed _ => Pass
  | AssertionFailed _ | DivisionByZero => Fail
  | OutOfFuel => Unfinished
  end.

Definition both (a b : Verdict) : Verdict :=
  match a with
  | Pass => b
  | _ => a
  end.

Definition assert (b : bool) : Verdict := if b then Pass else Fail.

(** Lines 128-132. *)
Definition extreme (frame_time base_latency i : Z) : Z :=
  let offset :=
    if Z.rem i 2 =? 0
    then (0.1 * Double.of_int frame_time)%float
    else (0.9 * Double.of_int frame_time)%float in
  Double.to_int
    (Double.of_int (Int.add (Int.mul i frame_time) base_latency) + offset)%float.

(** Lines 146-148. *)
Definition double_sampling (frame_time base_latency i : Z) : Z :=
  Double.to_int
    (Double.of_int i * 0.5 * Double.of_int frame_time
     + Double.of_int base_latency)%float.

(** Lines 158-160. *)
Fixpoint check_lag (k : nat) (i : Z) (v : list Z) : Verdict :=
  match k with
  | O => Pass
  | S k' =>
      both (assert (Int.sub (Int.mul 2 i) 1 <=? nth (Z.to_nat i) v 0))
           (check_lag k' (Int.add i 1) v)
  end.

(** Lines 166-212: delivery times measured on an iPhone Xs, in frames. *)
Definition iphone_xs_times : list float :=
  [0.15; 1.0773046874999999; 2.1738720703124996; 3.0579052734374996;
   4.0890087890624995; 5.0952685546875; 6.1251708984375; 7.1253076171875;
   8.125927734374999; 9.37248046875; 10.133950195312499; 11.161201171875;
   12.226992187499999; 13.1443798828125; 14.440327148437499;
   15.091684570312498; 16.138681640625; 17.126469726562497;
   18.1592431640625; 19.371372070312496; 20.033774414062496;
   21.021782226562497; 22.070053710937497; 23.325541992187496;
   24.119648437499997; 25.084262695312496; 26.077866210937497;
   27.036547851562496; 28.035073242187497; 29.081411132812498;
   30.066064453124998; 31.089360351562497; 32.086142578125;
   33.4618798828125; 34.14697265624999; 35.0513525390625;
   36.136025390624994; 37.1618408203125; 38.144472656249995;
   39.201123046875; 40.4339501953125; 41.1552099609375;
   42.102128906249995; 43.0426318359375; 44.070131835937495;
   45.08862304687499; 46.091469726562494]%float.

(** Lines 222-226. *)
Definition iphone_xs_generator (frame_time base_latency i : Z) : Z :=
  Int.add base_latency
    (Double.to_int
       (nth (Z.to_nat i) iphone_xs_times 0 * Double.of_int frame_time)%float).

Section Fixture.

(** The shell of the fixture, [this]. *)
Variable shell : ShellTest.Shell.

(** The call of [TestSimulatedInputEvents] that the three tests make. *)
Definition run_test (fuel : nat) (num_events base_latency : Z)
  (delivery_time : Z -> Z) (frame_time : Z)
  : Outcome (ShellTest.shell_state shell * TestState) :=
  TestSimulatedInputEvents (ShellTest.DispatchFakePointerData shell)
    (ShellTest.PumpOneFrame shell) num_events base_latency delivery_time
    frame_time fuel (ShellTest.shell_start shell, initial_state).

(** Lines 123-139. *)
Definition MissAtMostOneFrameForIrregularInputEvents (fuel : nat)
  : Verdict * list Z :=
  let frame_time := 10 in
  let base_latency := Double.to_int (0.5 * Double.of_int frame_time)%float in
  let n := 40 in
  let o := run_test fuel n base_latency (extreme frame_time base_latency)
                    frame_time in
  let frame_drawn := Z.of_nat (length (consumed_at_frame o)) in
  (both (simulated o) (assert (n - 1 <=? frame_drawn)), consumed_at_frame o).

(** Lines 141-161. *)
Definition DelayAtMostOneEventForFasterThanVSyncInputEvents (fuel : nat)
  : Verdict * list Z :=
  let frame_time := 10 in
  let base_latency := Double.to_int (0.2 * Double.of_int frame_time)%float in
  let n := 40 in
  let o := run_test fuel n base_latency
                    (double_sampling frame_time base_latency) frame_time in
  let v := consumed_at_frame o in
  let frame_drawn := Z.of_nat (length v) in
  (both (simulated o)
     (both (assert (frame_drawn =? Z.quot n 2 + 1))
           (check_lag (Z.to_nat (Z.quot n 2)) 0 v)), v).

(** One round of the loop of lines 217-232, for one base latency. *)
Definition iphone_round (fuel : nat) (base_latency_f : float)
  : Verdict * list Z :=
  let frame_time := 10000 in
  let n := Z.of_nat (length iphone_xs_times) in
  let base_latency :=
    Double.to_int (base_latency_f * Double.of_int frame_time)%float in
  let o := run_test fuel n base_latency
                    (iphone_xs_generator frame_time base_latency) frame_time in
  let frame_drawn := Z.of_nat (length (consumed_at_frame o)) in
  (both (simulated o) (assert (n - 1 <=? frame_drawn)), consumed_at_frame o).

(** Lines 217-232: [for (double base_latency_f = 0; base_latency_f < 1;
    base_latency_f += 0.1)]; a failing [ASSERT_GE] leaves the test. *)
Fixpoint iphone_sweep (rounds fuel : nat) (base_latency_f : float) : Verdict :=
  if (base_latency_f <? 1)%float then
    match rounds with
    | O => Unfinished
    | S rounds' =>
        both (fst (iphone_round fuel base_latency_f))
             (iphone_sweep rounds' fuel (base_latency_f + 0.1)%float)
    end
  else Pass.

Definition HandlesActualIphoneXsInputEvents (rounds fuel : nat) : Verdict :=
  iphone_sweep rounds fuel 0%float.

End Fixture.

End Tests.

(** ** Observations on runs *)

(** The record is strictly increasing, index by index. *)
Definition increasing (v : list Z) : Prop :=
  forall p q : nat, (p < q < length v)%nat -> nth p v 0 < nth q v 0.

(** What the callbacks maintain: the record is sorted, bounded by the
    counter, and non-empty whenever the latch is set. *)
Record record_ok (s : TestState) : Prop := {
  ok_sorted : StronglySorted Z.lt (events_consumed_at_frame s);
  ok_bound : Forall (fun y => y <= events_consumed s)
                    (events_consumed_at_frame s);
  ok_back : will_draw_new_frame s = false -> events_consumed_at_frame s <> [];
  ok_count : 0 <= events_consumed s
}.

(** The captured variables after the calls [cs], from their initial
    values. *)
Definition reached (cs : list NativeCall) : TestState :=
  run_natives cs initial_state.

(** The consumer calls of one tick that delivers [m] samples. *)
Definition burst (m : nat) : list NativeCall :=
  repeat OnPointerDataPacket m ++ [OnBeginFrame].

(** The [m] consecutive indices from [i] on. *)
Fixpoint range (i : Z) (m : nat) : list Z :=
  match m with
  | O => []
  | S m' => i :: range (i + 1) m'
  end.

(** The effect of a sequence of shell calls on a world. *)
Definition replay {W : Type} (dispatch pump : Z -> W -> W)
  (tr : list ShellCall) (w : W) : W :=
  fold_left (fun w c => match c with
                        | Dispatch i => dispatch i w
                        | Pump j => pump j w
                        end) tr w.

(** The events handed to the shell, in the order of the calls. *)
Fixpoint handed_over (tr : list ShellCall) : list Z :=
  match tr with
  | [] => []
  | Dispatch i :: tr' => i :: handed_over tr'
  | Pump _ :: tr' => handed_over tr'
  end.

(** The frames pumped, in the order of the calls. *)
Fixpoint pumped (tr : list ShellCall) : list Z :=
  match tr with
  | [] => []
  | Dispatch _ :: tr' => pumped tr'
  | Pump j :: tr' => j :: pumped tr'
  end.

(** The first frame pumped in [tr]. *)
Fixpoint next_pump (tr : list ShellCall) : option Z :=
  match tr with
  | [] => None
  | Pump j :: _ => Some j
  | Dispatch _ :: tr' => next_pump tr'
  end.

(** The tick that delivers event [i]: the first frame pumped after the
    event was handed over. *)
Fixpoint delivered_at (i : Z) (tr : list ShellCall) : option Z :=
  match tr with
  | [] => None
  | Dispatch x :: tr' => if x =? i then next_pump tr' else delivered_at i tr'
  | Pump _ :: tr' => delivered_at i tr'
  end.

(** What a completed run looks like from the state [(i, j)] of the
    simulation loop on, for [num_events] events with arrival times
    [delivery_time], a frame period [frame_time] and a last frame [last]. *)
Record trace_from (num_events : Z) (delivery_time : Z -> Z)
  (frame_time last i j : Z) (tr : list ShellCall) : Prop := {
  tf_handed : handed_over tr = range i (Z.to_nat (num_events - i));
  tf_pumped : pumped tr = range j (length (pumped tr));
  tf_tick : forall x, i <= x < num_events ->
      exists jx, delivered_at x tr = Some jx /\ j <= jx <= last
                 /\ delivery_time x <= jx * frame_time;
  tf_order : forall x y jx jy, i <= x <= y -> y < num_events ->
      delivered_at x tr = Some jx -> delivered_at y tr = Some jy -> jx <= jy;
  tf_first :
      (forall x y, 0 <= x <= y -> y < num_events ->
                   delivery_time x <= delivery_time y) ->
      (forall x, i <= x < num_events -> 0 < j ->
                 (j - 1) * frame_time < delivery_time x) ->
      forall x jx, i <= x < num_events -> delivered_at x tr = Some jx ->
                   0 < jx -> (jx - 1) * frame_time < delivery_time x
}.

(** The latency model of lines 27-38: the frame in which event [i] would be
    consumed if there were no latency, the latency left over, and the
    number of ideal frames met among the first [k] events. *)
Definition ideal_frame (base_latency : Z) (delivery_time : Z -> Z)
  (frame_time i : Z) : Z :=
  (delivery_time i - base_latency) / frame_time.

Definition random_latency (base_latency : Z) (delivery_time : Z -> Z)
  (frame_time i : Z) : Z :=
  delivery_time i
  - ideal_frame base_latency delivery_time frame_time i * frame_time
  - base_latency.

Fixpoint frame_count (base_latency : Z) (delivery_time : Z -> Z)
  (frame_time : Z) (k : nat) : Z :=
  match k with
  | O => 0
  | S k' =>
      let c := frame_count base_latency delivery_time frame_time k' in
      if ideal_frame base_latency delivery_time frame_time (Z.of_nat k') =? c
      then c + 1 else c
  end.

(** The run got past the checks and into the simulation loop. *)
Definition entered_simulation {W : Type} (o : Outcome W) : Prop :=
  match o with
  | Completed _ | OutOfFuel => True
  | AssertionFailed _ | DivisionByZero => False
  end.

(** The latency model as a whole: a non-negative base latency, a random
    latency within one frame for every event, and no ideal frame skipped. *)
Definition latency_model (num_events base_latency : Z)
  (delivery_time : Z -> Z) (frame_time : Z) : Prop :=
  0 <= base_latency
  /\ forall i, 0 <= i < num_events ->
       0 <= random_latency base_latency delivery_time frame_time i < frame_time
       /\ ideal_frame base_latency delivery_time frame_time i
          < frame_count base_latency delivery_time frame_time (Z.to_nat (i + 1))
       /\ forall f,
            0 <= f <= ideal_frame base_latency delivery_time frame_time i ->
            exists y,
              0 <= y <= i
              /\ ideal_frame base_latency delivery_time frame_time y = f.

(** The counters agree with the record and with the calls made. *)
Record counts_ok (s : TestState) (calls : Z) : Prop := {
  co_frames : frame_drawn s = Z.of_nat (length (events_consumed_at_frame s));
  co_events : events_consumed s = calls;
  co_size : Z.of_nat (length (events_consumed_at_frame s)) <= calls;
  co_back : will_draw_new_frame s = false -> events_consumed_at_frame s <> []
}.

(** The shell of [HoldOne] and the captured variables once [i] events have
    each been delivered in a frame of their own: frame [k] records [k + 1]
    events.  [busy] tells whether the last of them came after the
    begin-frame signal, so that its frame is still in progress. *)
Definition at_frame_rate (busy : bool) (i : Z) : HoldOne.State * TestState :=
  (HoldOne.mkState busy false,
   mkTestState (range 1 (Z.to_nat i)) (negb busy) i i).

(** ** Further observations on the harness *)

(** The number of begin-frame callbacks among the calls [cs]. *)
Definition begin_frames (cs : list NativeCall) : Z :=
  Z.of_nat (length (filter (fun c => negb (is_packet c)) cs)).

(** An event passes the first assertion of the check when it is not earlier
    than the base latency, or earlier by whole frame periods. *)
Definition on_time (base_latency : Z) (delivery_time : Z -> Z)
  (frame_time i : Z) : Prop :=
  base_latency <= delivery_time i
  \/ (base_latency - delivery_time i) mod frame_time = 0.

(** The record that ticks delivering [ms] events each should leave: one
    entry per tick that delivers something, holding the events so far. *)
Fixpoint running_totals (total : Z) (ms : list nat) : list Z :=
  match ms with
  | [] => []
  | O :: ms' => running_totals total ms'
  | m :: ms' =>
      (total + Z.of_nat m) :: running_totals (total + Z.of_nat m) ms'
  end.

(** The consumer calls of the ticks that deliver [ms] events each. *)
Definition bursts (ms : list nat) : list NativeCall :=
  concat (map burst ms).

(** Lines 217-221: the values that [base_latency_f] takes in the loop of
    [HandlesActualIphoneXsInputEvents], and the [base_latency] of each
    round. *)
Fixpoint sweep_values (rounds : nat) (base_latency_f : float) : list float :=
  if (base_latency_f <? 1)%float then
    match rounds with
    | O => []
    | S rounds' =>
        base_latency_f :: sweep_values rounds' (base_latency_f + 0.1)%float
    end
  else [].

Definition sweep_base_latency (frame_time : Z) (base_latency_f : float) : Z :=
  Double.to_int (base_latency_f * Double.of_int frame_time)%float.

(** ** Semantics actions and flags (lib/ui/semantics.dart)

    A Dart [int] is a [Z]; a constant map literal is the list of its
    entries, in the order of the source; [null] is [None]. *)

(** [m[k]]: the value of the entry with key [k], or [null]. *)
Fixpoint map_lookup {A : Type} (k : Z) (m : list (Z * A)) : option A :=
  match m with
  | [] => None
  | (k', v) :: m' => if k' =? k then Some v else map_lookup k m'
  end.

Module SemanticsAction.

(** Lines 10 and 27: [const SemanticsAction._(this.index)]. *)
Record t := new { index : Z }.

(** Lines 12-22. *)
Definition _kTapIndex : Z := Z.shiftl 1 0.
Definition _kLongPressIndex : Z := Z.shiftl 1 1.
Definition _kScrollLeftIndex : Z := Z.shiftl 1 2.
Definition _kScrollRightIndex : Z := Z.shiftl 1 3.
Definition _kScrollUpIndex : Z := Z.shiftl 1 4.
Definition _kScrollDownIndex : Z := Z.shiftl 1 5.
Definition _kIncreaseIndex : Z := Z.shiftl 1 6.
Definition _kDecreaseIndex : Z := Z.shiftl 1 7.
Definition _kShowOnScreen : Z := Z.shiftl 1 8.
Definition _kMoveCursorForwardByCharacter : Z := Z.shiftl 1 9.
Definition _kMoveCursorBackwardByCharacter : Z := Z.shiftl 1 10.

(** Lines 31-90. *)
Definition tap : t := new _kTapIndex.
Definition longPress : t := new _kLongPressIndex.
Definition scrollLeft : t := new _kScrollLeftIndex.
Definition scrollRight : t := new _kScrollRightIndex.
Definition scrollUp : t := new _kScrollUpIndex.
Definition scrollDown : t := new _kScrollDownIndex.
Definition increase : t := new _kIncreaseIndex.
Definition decrease : t := new _kDecreaseIndex.
Definition showOnScreen : t := new _kShowOnScreen.
Definition moveCursorForwardByCharacter : t :=
  new _kMoveCursorForwardByCharacter.
Definition moveCursorBackwardByCharacter : t :=
  new _kMoveCursorBackwardByCharacter.

(** Lines 96-108. *)
Definition values : list (Z * t) :=
  [ (_kTapIndex, tap);
    (_kLongPressIndex, longPress);
    (_kScrollLeftIndex, scrollLeft);
    (_kScrollRightIndex, scrollRight);
    (_kScrollUpIndex, scrollUp);
    (_kScrollDownIndex, scrollDown);
    (_kIncreaseIndex, increase);
    (_kDecreaseIndex, decrease);
    (_kShowOnScreen, showOnScreen);
    (_kMoveCursorForwardByCharacter, moveCursorForwardByCharacter);
    (_kMoveCursorBackwardByCharacter, moveCursorBackwardByCharacter) ].

(** Lines 111-137: the [switch] on [index], and [return null] after it. *)
Definition toString (a : t) : option string :=
  if index a =? _kTapIndex then Some "SemanticsAction.tap"%string
  else if index a =? _kLongPressIndex then
    Some "SemanticsAction.longPress"%string
  else if index a =? _kScrollLeftIndex then
    Some "SemanticsAction.scrollLeft"%string
  else if index a =? _kScrollRightIndex then
    Some "SemanticsAction.scrollRight"%string
  else if index a =? _kScrollUpIndex then
    Some "SemanticsAction.scrollUp"%string
  else if index a =? _kScrollDownIndex then
    Some "SemanticsAction.scrollDown"%string
  else if index a =? _kIncreaseIndex then
    Some "SemanticsAction.increase"%string
  else if index a =? _kDecreaseIndex then
    Some "SemanticsAction.decrease"%string
  else if index a =? _kShowOnScreen then
    Some "SemanticsAction.showOnScreen"%string
  else if index a =? _kMoveCursorForwardByCharacter then
    Some "SemanticsAction.moveCursorForwardByCharacter"%string
  else if index a =? _kMoveCursorBackwardByCharacter then
    Some "SemanticsAction.moveCursorBackwardByCharacter"%string
  else None.

End SemanticsAction.

Module SemanticsFlags.

(** Lines 149 and 154: [const SemanticsFlags._(this.index)]. *)
Record t := new { index : Z }.

(** Lines 142-147. *)
Definition _kHasCheckedStateIndex : Z := Z.shiftl 1 0.
Definition _kIsCheckedIndex : Z := Z.shiftl 1 1.
Definition _kIsSelectedIndex : Z := Z.shiftl 1 2.
Definition _kIsButtonIndex : Z := Z.shiftl 1 3.
Definition _kIsTextFieldIndex : Z := Z.shiftl 1 4.
Definition _kIsFocusedIndex : Z := Z.shiftl 1 5.

(** Lines 159-194. *)
Definition hasCheckedState : t := new _kHasCheckedStateIndex.
Definition isChecked : t := new _kIsCheckedIndex.
Definition isSelected : t := new _kIsSelectedIndex.
Definition isButton : t := new _kIsButtonIndex.
Definition isTextField : t := new _kIsTextFieldIndex.
Definition isFocused : t := new _kIsFocusedIndex.

(** Lines 199-206. *)
Definition values : list (Z * t) :=
  [ (_kHasCheckedStateIndex, hasCheckedState);
    (_kIsCheckedIndex, isChecked);
    (_kIsSelectedIndex, isSelected);
    (_kIsButtonIndex, isButton);
    (_kIsTextFieldIndex, isTextField);
    (_kIsFocusedIndex, isFocused) ].

(** Lines 209-225. *)
Definition toString (a : t) : option string :=
  if index a =? _kHasCheckedStateIndex then
    Some "SemanticsFlags.hasCheckedState"%string
  else if index a =? _kIsCheckedIndex then
    Some "SemanticsFlags.isChecked"%string
  else if index a =? _kIsSelectedIndex then
    Some "SemanticsFlags.isSelected"%string
  else if index a =? _kIsButtonIndex then
    Some "SemanticsFlags.isButton"%string
  else if index a =? _kIsTextFieldIndex then
    Some "SemanticsFlags.isTextField"%string
  else if index a =? _kIsFocusedIndex then
    Some "SemanticsFlags.isFocused"%string
  else None.

End SemanticsFlags.

Module SemanticsUpdateBuilder.

(** What a call can throw before it reaches the native method. *)
Inductive Thrown :=
| NoSuchMethodError
| ArgumentError (message : string).

(** The arguments of the native [_updateNode] (lines 300-316). *)
Record NativeUpdateNode := mkNativeUpdateNode {
  arg_id : option Z;
  arg_flags : option Z;
  arg_actions : option Z;
  arg_left : float;
  arg_top : float;
  arg_right : float;
  arg_bottom : float;
  arg_label : option string;
  arg_hint : option string;
  arg_value : option string;
  arg_increasedValue : option string;
  arg_decreasedValue : option string;
  arg_textDirection : Z;
  arg_transform : list float;
  arg_children : option (list Z)
}.

Section UpdateNode.

(** [Rect] and [TextDirection] are declared in other files of the
    library. *)
Variable Rect : Type.
Variables left top right bottom : Rect -> float.
Variable TextDirection : Type.
Variable index : TextDirection -> Z.

(** Lines 268-299.  Every named argument may be [null]; reading a member
    of [null] throws [NoSuchMethodError].  The result is the call made to
    [_updateNode]. *)
Definition updateNode (id flags actions : option Z) (rect : option Rect)
  (label hint value increasedValue decreasedValue : option string)
  (textDirection : option TextDirection) (transform : option (list float))
  (children : option (list Z)) : Thrown + NativeUpdateNode :=
  match transform with
  | None => inl NoSuchMethodError
  | Some entries =>
      if negb (length entries =? 16)%nat then
        inl (ArgumentError "transform argument must have 16 entries.")
      else
        match rect with
        | None => inl NoSuchMethodError
        | Some r =>
            inr (mkNativeUpdateNode id flags actions
                   (left r) (top r) (right r) (bottom r)
                   label hint value increasedValue decreasedValue
                   (match textDirection with
                    | Some d => index d + 1
                    | None => 0
                    end)
                   entries children)
        end
  end.

End UpdateNode.

End SemanticsUpdateBuilder.

(** The bit field that holds the indices [l]. *)
Definition bit_field (l : list Z) : Z := fold_right Z.lor 0 l.

(** The objects of a map literal. *)
Definition declared {A : Type} (m : list (Z * A)) (a : A) : Prop :=
  In a (map snd m).

(** Distinct indices of a table share no bit, and no index is zero. *)
Definition single_bits (table : list Z) : bool :=
  forallb (fun x =>
    forallb (fun y => Bool.eqb (negb (Z.land x y =? 0)) (x =? y)) table)
    table.

(** ** Paths of the script runner (runtime/dart_controller.cc)

    A [std::string] is the list of its characters; positions and lengths
    are [size_t] values, here [nat]: every position the code computes is
    within the string it indexes. *)

Module StdString.

(** [needle] is read at the head of [l]. *)
Fixpoint starts_with (needle l : list ascii) : bool :=
  match needle, l with
  | [], _ => true
  | _ :: _, [] => false
  | a :: needle', b :: l' => Ascii.eqb a b && starts_with needle' l'
  end.

(** The first position at or after [pos] at which [needle] is read, [l]
    being the text from [pos] on; [None] is [npos]. *)
Fixpoint find_from (needle l : list ascii) (pos : nat) : option nat :=
  if starts_with needle l then Some pos
  else
    match l with
    | [] => None
    | _ :: l' => find_from needle l' (S pos)
    end.

(** [s.find(needle, pos)]. *)
Definition find (s needle : list ascii) (pos : nat) : option nat :=
  if (length s <? pos)%nat then None
  else find_from needle (skipn pos s) pos.

(** [s.replace(pos, len, r)], for [pos <= s.size()]. *)
Definition replace (s : list ascii) (pos len : nat) (r : list ascii)
  : list ascii :=
  firstn pos s ++ r ++ skipn (pos + len) s.

End StdString.

Module DartController.

Definition backslash : ascii := ascii_of_nat 92.
Definition slash : ascii := "/"%char.
Definition colon : ascii := ":"%char.

(** Lines 49-52: the loop of [FindAndReplace], on the variables [rStr] and
    [pos]; [fuel] bounds the number of searches. *)
Fixpoint FindAndReplace_loop (fuel : nat) (findStr replaceStr rStr : list ascii)
  (pos : nat) : option (list ascii) :=
  match fuel with
  | O => None
  | S fuel' =>
      match StdString.find rStr findStr pos with
      | None => Some rStr
      | Some found =>
          FindAndReplace_loop fuel' findStr replaceStr
            (StdString.replace rStr found (length findStr) replaceStr)
            (found + length replaceStr)
      end
  end.

(** Lines 44-54. *)
Definition FindAndReplace (fuel : nat) (str findStr replaceStr : list ascii)
  : option (list ascii) :=
  FindAndReplace_loop fuel findStr replaceStr str 0.

Section Paths.

(** [files::SimplifyPath] and [files::GetCurrentDirectory] belong to the
    fxl library, not to these sources. *)
Variable SimplifyPath : list ascii -> list ascii.
Variable GetCurrentDirectory : list ascii.

(** Lines 56-66, the variant compiled for Windows.  The pattern of line 57
    is the string of two backslash characters. *)
Definition SanitizePath_win (fuel : nat) (path : list ascii)
  : option (list ascii) :=
  FindAndReplace fuel path [backslash; backslash] [slash].

Definition ResolvePath_win (fuel : nat) (path : list ascii)
  : option (list ascii) :=
  match SanitizePath_win fuel path with
  | None => None
  | Some sanitized =>
      if (2 <? length sanitized)%nat
         && Ascii.eqb (nth 1 sanitized Ascii.zero) colon
      then Some sanitized
      else Some (SimplifyPath (GetCurrentDirectory ++ [slash] ++ sanitized))
  end.

(** Lines 70-79, the variant compiled elsewhere. *)
Definition SanitizePath (path : list ascii) : list ascii := path.

Definition ResolvePath (path : list ascii) : list ascii :=
  if negb (length path =? 0)%nat && Ascii.eqb (nth 0 path Ascii.zero) slash
  then path
  else SimplifyPath (GetCurrentDirectory ++ [slash] ++ path).

End Paths.

End DartController.

(** One pass over [l] from the left: where [findStr] is read it is
    replaced and skipped, elsewhere one character is copied; the text put
    in is not read again.  [n] bounds the number of steps. *)
Fixpoint replace_from (n : nat) (findStr replaceStr l : list ascii)
  : list ascii :=
  match n with
  | O => l
  | S n' =>
      if StdString.starts_with findStr l
      then replaceStr ++ replace_from n' findStr replaceStr
                           (skipn (length findStr) l)
      else
        match l with
        | [] => []
        | a :: l' => a :: replace_from n' findStr replaceStr l'
        end
  end.

Definition replace_all (findStr replaceStr l : list ascii) : list ascii :=
  replace_from (length l) findStr replaceStr l.

(** [needle] is read at no position of [l]. *)
Definition absent (needle l : list ascii) : Prop :=
  forall i : nat, StdString.starts_with needle (skipn i l) = false.

(** * Properties *)

(** ** Arithmetic on [int] *)

Lemma wrap_in_range (z : Z) : Int.in_range z -> Int.wrap z = z.
Proof.
  unfold Int.in_range, Int.wrap, Int.min_int, Int.max_int. intros H.
  rewrite Z.mod_small; lia.
Qed.

Lemma add_in_range (a b : Z) : Int.in_range (a + b) -> Int.add a b = a + b.
Proof. apply wrap_in_range. Qed.

Lemma sub_in_range (a b : Z) : Int.in_range (a - b) -> Int.sub a b = a - b.
Proof. apply wrap_in_range. Qed.

Lemma mul_in_range (a b : Z) : Int.in_range (a * b) -> Int.mul a b = a * b.
Proof. apply wrap_in_range. Qed.

Lemma succ_below (i n : Z) :
  0 <= i -> i < n -> n <= Int.max_int -> Int.add i 1 = i + 1.
Proof.
  intros. apply add_in_range.
  unfold Int.in_range, Int.min_int, Int.max_int in *. lia.
Qed.

(** ** The delivery record kept by the callbacks *)

Lemma sorted_snoc (v : list Z) (x : Z) :
  StronglySorted Z.lt v -> Forall (fun y => y < x) v ->
  StronglySorted Z.lt (v ++ [x]).
Proof.
  induction v as [|a v IH]; simpl; intros Hs Hf.
  - constructor; constructor.
  - inversion Hs; subst. inversion Hf; subst. constructor.
    + now apply IH.
    + apply Forall_app. split; [assumption | now constructor].
Qed.

Lemma sorted_unsnoc (v : list Z) (x : Z) :
  StronglySorted Z.lt (v ++ [x]) ->
  StronglySorted Z.lt v /\ Forall (fun y => y < x) v.
Proof.
  induction v as [|a v IH]; simpl; intros Hs.
  - split; constructor.
  - inversion Hs as [|? ? Hs' Hall]; subst. destruct (IH Hs') as [Hv Hlt].
    apply Forall_app in Hall. destruct Hall as [Hav Hax].
    inversion Hax; subst. split; constructor; assumption.
Qed.

Lemma sorted_increasing (v : list Z) : StronglySorted Z.lt v -> increasing v.
Proof.
  induction 1 as [|a v Hs IH Hall]; intros p q Hpq; simpl in *.
  - lia.
  - destruct q as [|q]; [lia|]. destruct p as [|p].
    + rewrite Forall_forall in Hall. apply Hall. apply nth_In. lia.
    + apply IH. lia.
Qed.

Lemma set_back_snoc (x y : Z) (v : list Z) : set_back x (v ++ [y]) = v ++ [x].
Proof.
  unfold set_back. destruct (v ++ [y]) eqn:E.
  - now destruct v.
  - rewrite <- E. now rewrite removelast_last.
Qed.

Lemma initial_ok : record_ok initial_state.
Proof.
  split; simpl; try constructor; try discriminate; lia.
Qed.

Lemma begin_frame_ok (s : TestState) :
  record_ok s -> record_ok (nativeOnBeginFrame s).
Proof.
  intros [Hs Hb Hk Hc]. split; simpl; try assumption. discriminate.
Qed.

Lemma packet_ok (s : TestState) :
  record_ok s -> events_consumed s < Int.max_int ->
  record_ok (nativeOnPointerDataPacket s)
  /\ events_consumed (nativeOnPointerDataPacket s) = events_consumed s + 1.
Proof.
  intros [Hs Hb Hk Hc] Hlt.
  assert (Hadd : Int.add (events_consumed s) 1 = events_consumed s + 1).
  { apply add_in_range.
    unfold Int.in_range, Int.min_int, Int.max_int in *. lia. }
  unfold nativeOnPointerDataPacket. rewrite Hadd.
  destruct (will_draw_new_frame s) eqn:Hw; simpl;
    (split; [split; simpl|reflexivity]).
  - apply sorted_snoc; [assumption|].
    eapply Forall_impl; [|exact Hb]. simpl. intros; lia.
  - apply Forall_app. split.
    + eapply Forall_impl; [|exact Hb]. simpl. intros; lia.
    + constructor; [lia|constructor].
  - intros _ E. now destruct (events_consumed_at_frame s).
  - lia.
  - destruct (exists_last (Hk eq_refl)) as [v [y E]]. rewrite E in *.
    rewrite set_back_snoc. apply sorted_unsnoc in Hs. destruct Hs as [Hv Hlast].
    apply sorted_snoc; [assumption|].
    apply Forall_app in Hb. destruct Hb as [_ Hy]. inversion Hy; subst.
    eapply Forall_impl; [|exact Hlast]. simpl. intros; lia.
  - destruct (exists_last (Hk eq_refl)) as [v [y E]]. rewrite E in *.
    rewrite set_back_snoc. apply Forall_app in Hb. destruct Hb as [Hv _].
    apply Forall_app. split.
    + eapply Forall_impl; [|exact Hv]. simpl. intros; lia.
    + constructor; [lia|constructor].
  - intros _. destruct (exists_last (Hk eq_refl)) as [v [y E]]. rewrite E.
    rewrite set_back_snoc. now destruct v.
  - lia.
Qed.

Lemma packets_cons (c : NativeCall) (cs : list NativeCall) :
  packets (c :: cs) = (if is_packet c then 1 else 0) + packets cs.
Proof.
  unfold packets. destruct c; cbn [filter is_packet length]; lia.
Qed.

Lemma packets_nonneg (cs : list NativeCall) : 0 <= packets cs.
Proof. unfold packets. lia. Qed.

Lemma run_natives_cons (c : NativeCall) (cs : list NativeCall) (s : TestState) :
  run_natives (c :: cs) s = run_natives cs (native c s).
Proof. reflexivity. Qed.

Lemma run_natives_app (cs ds : list NativeCall) (s : TestState) :
  run_natives (cs ++ ds) s = run_natives ds (run_natives cs s).
Proof. apply fold_left_app. Qed.

Lemma run_natives_ok (cs : list NativeCall) (s : TestState) :
  record_ok s -> events_consumed s + packets cs <= Int.max_int ->
  record_ok (run_natives cs s)
  /\ events_consumed (run_natives cs s) = events_consumed s + packets cs.
Proof.
  revert s. induction cs as [|c cs IH]; intros s Hok Hle.
  - simpl. split; [assumption|]. unfold packets. simpl. lia.
  - rewrite packets_cons in *. pose proof (packets_nonneg cs) as Hp.
    rewrite run_natives_cons. destruct c; cbn [native is_packet] in *.
    + destruct (packet_ok s Hok) as [Hok' Hc']; [lia|].
      destruct (IH _ Hok') as [H1 H2]; [lia|]. split; [exact H1|].
      rewrite H2. lia.
    + destruct (IH _ (begin_frame_ok s Hok)) as [H1 H2]; [simpl; lia|].
      split; [exact H1|]. rewrite H2. simpl. lia.
Qed.

(** Once a frame has begun, [m] deliveries and the next begin-frame signal
    add exactly one entry to the record. *)
Lemma packets_after_first (k : nat) (s : TestState) (v : list Z) :
  will_draw_new_frame s = false ->
  events_consumed_at_frame s = v ++ [events_consumed s] ->
  0 <= events_consumed s ->
  events_consumed s + Z.of_nat k <= Int.max_int ->
  run_natives (repeat OnPointerDataPacket k) s =
  mkTestState (v ++ [events_consumed s + Z.of_nat k]) false
              (events_consumed s + Z.of_nat k) (frame_drawn s).
Proof.
  revert s. induction k as [|k IH]; intros s Hw Hv H0 Hle.
  - simpl. rewrite Z.add_0_r. destruct s; simpl in *. now subst.
  - cbn [repeat]. rewrite run_natives_cons. cbn [native].
    assert (Hadd : Int.add (events_consumed s) 1 = events_consumed s + 1).
    { apply add_in_range.
    unfold Int.in_range, Int.min_int, Int.max_int in *. lia. }
    rewrite IH; unfold nativeOnPointerDataPacket; rewrite Hw, Hadd; simpl.
    + f_equal; [f_equal; f_equal|]; lia.
    + reflexivity.
    + rewrite Hv. now rewrite set_back_snoc.
    + lia.
    + lia.
Qed.

Lemma burst_one_frame (m : nat) (s : TestState) :
  will_draw_new_frame s = true -> (1 <= m)%nat ->
  0 <= events_consumed s ->
  events_consumed s + Z.of_nat m <= Int.max_int ->
  Int.in_range (frame_drawn s + 1) ->
  run_natives (burst m) s =
  mkTestState (events_consumed_at_frame s ++ [events_consumed s + Z.of_nat m])
              true (events_consumed s + Z.of_nat m) (frame_drawn s + 1).
Proof.
  intros Hw Hm H0 Hle Hfd. destruct m as [|k]; [lia|].
  unfold burst. rewrite run_natives_app. cbn [repeat].
  rewrite (run_natives_cons OnPointerDataPacket (repeat OnPointerDataPacket k)).
  cbn [native].
  assert (Hadd : Int.add (events_consumed s) 1 = events_consumed s + 1).
  { apply add_in_range.
    unfold Int.in_range, Int.min_int, Int.max_int in *. lia. }
  rewrite (packets_after_first k _ (events_consumed_at_frame s));
    unfold nativeOnPointerDataPacket; rewrite Hw, Hadd; simpl;
    try reflexivity; try lia.
  rewrite (add_in_range _ _ Hfd).
  unfold nativeOnBeginFrame. simpl. f_equal; [f_equal; f_equal|]; lia.
Qed.

(** [back()] is only ever applied to a non-empty record. *)
Lemma back_defined (cs : list NativeCall) :
  packets cs <= Int.max_int ->
  will_draw_new_frame (reached cs) = false ->
  events_consumed_at_frame (reached cs) <> [].
Proof.
  intros Hle. unfold reached.
  destruct (run_natives_ok cs initial_state initial_ok) as [Hok _];
    [simpl; exact Hle|].
  exact (ok_back _ Hok).
Qed.

(** C9: the record [events_consumed_at_frame] is strictly increasing.
    Whatever calls the shell makes to the two native entries, as long as
    the packet counter stays within [int]: any two recorded frames [p < q]
    satisfy [events_consumed_at_frame[p] < events_consumed_at_frame[q]];
    and the next packet either pushes the just-incremented counter, which
    exceeds every element recorded so far, or overwrites the last element
    with it, which increases that element. *)
Theorem delivery_record_strictly_increasing (cs : list NativeCall) :
  packets cs <= Int.max_int ->
  (forall p q : nat,
     (p < q < length (events_consumed_at_frame (reached cs)))%nat ->
     nth p (events_consumed_at_frame (reached cs)) 0
     < nth q (events_consumed_at_frame (reached cs)) 0)
  /\ (packets cs < Int.max_int ->
      events_consumed (nativeOnPointerDataPacket (reached cs))
      = events_consumed (reached cs) + 1
      /\ (will_draw_new_frame (reached cs) = true ->
          events_consumed_at_frame (nativeOnPointerDataPacket (reached cs))
          = events_consumed_at_frame (reached cs)
            ++ [events_consumed (reached cs) + 1]
          /\ Forall (fun y => y < events_consumed (reached cs) + 1)
                    (events_consumed_at_frame (reached cs)))
      /\ (will_draw_new_frame (reached cs) = false ->
          exists v y,
            events_consumed_at_frame (reached cs) = v ++ [y]
            /\ events_consumed_at_frame (nativeOnPointerDataPacket (reached cs))
               = v ++ [events_consumed (reached cs) + 1]
            /\ y < events_consumed (reached cs) + 1)).
Proof.
  intros Hle. unfold reached.
  destruct (run_natives_ok cs initial_state initial_ok) as [Hok Hcount];
    [simpl; exact Hle|].
  simpl in Hcount. set (s := run_natives cs initial_state) in *.
  split; [exact (sorted_increasing _ (ok_sorted _ Hok))|].
  intros Hlt.
  assert (Hadd : Int.add (events_consumed s) 1 = events_consumed s + 1).
  { apply add_in_range. pose proof (ok_count _ Hok).
    unfold Int.in_range, Int.min_int, Int.max_int in *. lia. }
  unfold nativeOnPointerDataPacket. rewrite Hadd. split; [|split].
  - now destruct (will_draw_new_frame s).
  - intros Hw. rewrite Hw. simpl. split; [reflexivity|].
    eapply Forall_impl; [|exact (ok_bound _ Hok)]. simpl. intros; lia.
  - intros Hw. rewrite Hw. simpl.
    destruct (exists_last (ok_back _ Hok Hw)) as [v [y E]].
    exists v, y. rewrite E, set_back_snoc. repeat split.
    pose proof (ok_bound _ Hok) as Hb. rewrite E in Hb.
    apply Forall_app in Hb. destruct Hb as [_ Hy]. inversion Hy; subst. lia.
Qed.

Lemma delivery_record_strictly_increasing_witness :
  nth 0 (events_consumed_at_frame
           (reached [OnBeginFrame; OnPointerDataPacket; OnPointerDataPacket;
                     OnBeginFrame; OnPointerDataPacket; OnBeginFrame;
                     OnBeginFrame; OnPointerDataPacket; OnPointerDataPacket;
                     OnPointerDataPacket])) 0
  < nth 2 (events_consumed_at_frame
             (reached [OnBeginFrame; OnPointerDataPacket; OnPointerDataPacket;
                       OnBeginFrame; OnPointerDataPacket; OnBeginFrame;
                       OnBeginFrame; OnPointerDataPacket; OnPointerDataPacket;
                       OnPointerDataPacket])) 0.
Proof.
  apply (delivery_record_strictly_increasing
           [OnBeginFrame; OnPointerDataPacket; OnPointerDataPacket;
            OnBeginFrame; OnPointerDataPacket; OnBeginFrame;
            OnBeginFrame; OnPointerDataPacket; OnPointerDataPacket;
            OnPointerDataPacket]).
  - vm_compute. discriminate.
  - vm_compute. split; constructor; repeat constructor.
Defined.

(** ** The simulation loop *)

Lemma range_app (i : Z) (a b : nat) :
  range i (a + b) = range i a ++ range (i + Z.of_nat a) b.
Proof.
  revert i. induction a as [|a IH]; intros i.
  - simpl. now rewrite Z.add_0_r.
  - cbn [Nat.add range app]. rewrite IH. do 3 f_equal. lia.
Qed.

Lemma in_range_list (x i : Z) (m : nat) :
  In x (range i m) <-> i <= x < i + Z.of_nat m.
Proof.
  revert i. induction m as [|m IH]; intros i.
  - simpl. lia.
  - cbn [range In]. rewrite IH. lia.
Qed.

Lemma length_range (i : Z) (m : nat) : length (range i m) = m.
Proof.
  revert i. induction m as [|m IH]; intros i; simpl; [reflexivity|now rewrite IH].
Qed.

Lemma replay_app {W : Type} (d p : Z -> W -> W) (tr tr' : list ShellCall) (w : W) :
  replay d p (tr ++ tr') w = replay d p tr' (replay d p tr w).
Proof. apply fold_left_app. Qed.

Lemma replay_record (tr acc : list ShellCall) :
  replay record_dispatch record_pump tr acc = acc ++ tr.
Proof.
  revert acc. induction tr as [|c tr IH]; intros acc.
  - simpl. now rewrite app_nil_r.
  - change (replay record_dispatch record_pump (c :: tr) acc)
      with (replay record_dispatch record_pump tr
              (match c with
               | Dispatch i => record_dispatch i acc
               | Pump j => record_pump j acc
               end)).
    rewrite IH. destruct c; unfold record_dispatch, record_pump;
      now rewrite <- app_assoc.
Qed.

Section Loop.

Context {W : Type}.
Variable dispatch : Z -> W -> W.
Variable pump : Z -> W -> W.
Variable num_events : Z.
Variable delivery_time : Z -> Z.
Variable frame_time : Z.

(** The calls made by the loop do not depend on the shell: running against
    any world is replaying the recorded calls on it. *)
Lemma deliver_due_replay (k : nat) (t i : Z) (acc : list ShellCall) (w : W) :
  deliver_due dispatch num_events delivery_time k t i (replay dispatch pump acc w)
  = (fst (deliver_due record_dispatch num_events delivery_time k t i acc),
     replay dispatch pump
       (snd (deliver_due record_dispatch num_events delivery_time k t i acc)) w).
Proof.
  revert i acc. induction k as [|k IH]; intros i acc; cbn [deliver_due].
  - reflexivity.
  - destruct ((i <? num_events) && (delivery_time i <=? t)); [|reflexivity].
    rewrite <- IH. f_equal. unfold record_dispatch. now rewrite replay_app.
Qed.

Lemma pump_frame_replay (i j : Z) (acc : list ShellCall) (w : W) :
  pump_frame dispatch pump num_events delivery_time frame_time i j
             (replay dispatch pump acc w)
  = (fst (pump_frame record_dispatch record_pump num_events delivery_time
                     frame_time i j acc),
     replay dispatch pump
       (snd (pump_frame record_dispatch record_pump num_events delivery_time
                        frame_time i j acc)) w).
Proof.
  unfold pump_frame. rewrite deliver_due_replay.
  destruct (deliver_due record_dispatch num_events delivery_time
              (Z.to_nat (num_events - i)) (Int.mul j frame_time) i acc)
    as [i' acc']; simpl.
  f_equal. unfold record_pump. now rewrite replay_app.
Qed.

Lemma simulate_replay (fuel : nat) (i j : Z) (acc : list ShellCall) (w : W) :
  simulate dispatch pump num_events delivery_time frame_time fuel i j
           (replay dispatch pump acc w)
  = option_map (fun tr => replay dispatch pump tr w)
      (simulate record_dispatch record_pump num_events delivery_time
                frame_time fuel i j acc).
Proof.
  revert i j acc. induction fuel as [|fuel IH]; intros i j acc;
    cbn [simulate]; destruct (i <? num_events); try reflexivity.
  rewrite pump_frame_replay.
  destruct (pump_frame record_dispatch record_pump num_events delivery_time
              frame_time i j acc) as [i' acc']; simpl.
  apply IH.
Qed.

(** The inner loop hands over a run of consecutive events, all due, and
    stops at the first event that is not. *)
Lemma deliver_due_spec (k : nat) (t i : Z) (w : W) :
  0 <= i -> num_events <= Int.max_int ->
  (Z.to_nat (num_events - i) <= k)%nat ->
  exists m : nat,
    deliver_due dispatch num_events delivery_time k t i w
    = (i + Z.of_nat m, replay dispatch pump (map Dispatch (range i m)) w)
    /\ (forall x, i <= x < i + Z.of_nat m -> x < num_events /\ delivery_time x <= t)
    /\ (i + Z.of_nat m < num_events -> t < delivery_time (i + Z.of_nat m)).
Proof.
  revert i w. induction k as [|k IH]; intros i w Hi Hn Hk; cbn [deliver_due].
  - exists 0%nat. simpl. rewrite Z.add_0_r. repeat split; lia.
  - destruct (i <? num_events) eqn:Hlt; simpl.
    + apply Z.ltb_lt in Hlt. destruct (delivery_time i <=? t) eqn:Hdue.
      * apply Z.leb_le in Hdue. rewrite (succ_below i num_events) by assumption.
        destruct (IH (i + 1) (dispatch i w)) as [m [E [Hall Hstop]]]; try lia.
        exists (S m). rewrite E. split; [|split].
        -- replace (i + Z.of_nat (S m)) with (i + 1 + Z.of_nat m) by lia.
           reflexivity.
        -- intros x Hx. destruct (Z.eq_dec x i) as [->|Hne]; [lia|].
           apply Hall. lia.
        -- replace (i + Z.of_nat (S m)) with (i + 1 + Z.of_nat m) by lia.
           exact Hstop.
      * apply Z.leb_gt in Hdue. exists 0%nat. simpl. rewrite Z.add_0_r.
        repeat split; try lia.
    + apply Z.ltb_ge in Hlt. exists 0%nat. simpl. rewrite Z.add_0_r.
      repeat split; lia.
Qed.

Lemma pump_frame_spec (i j : Z) (w : W) :
  0 <= i -> num_events <= Int.max_int ->
  exists m : nat,
    pump_frame dispatch pump num_events delivery_time frame_time i j w
    = (i + Z.of_nat m,
       replay dispatch pump (map Dispatch (range i m) ++ [Pump j]) w)
    /\ (forall x, i <= x < i + Z.of_nat m ->
        x < num_events /\ delivery_time x <= Int.mul j frame_time)
    /\ (i + Z.of_nat m < num_events ->
        Int.mul j frame_time < delivery_time (i + Z.of_nat m)).
Proof.
  intros Hi Hn. unfold pump_frame.
  destruct (deliver_due_spec (Z.to_nat (num_events - i)) (Int.mul j frame_time)
              i w Hi Hn (Nat.le_refl _)) as [m [E [Hall Hstop]]].
  exists m. rewrite E. split; [|split; assumption].
  now rewrite replay_app.
Qed.

End Loop.

(** ** The recorded calls *)

Lemma handed_over_app (a b : list ShellCall) :
  handed_over (a ++ b) = handed_over a ++ handed_over b.
Proof.
  induction a as [|[x|j] a IH]; simpl; [reflexivity| |]; now rewrite IH.
Qed.

Lemma handed_over_dispatches (l : list Z) : handed_over (map Dispatch l) = l.
Proof. induction l as [|x l IH]; simpl; [reflexivity|now rewrite IH]. Qed.

Lemma pumped_app (a b : list ShellCall) : pumped (a ++ b) = pumped a ++ pumped b.
Proof.
  induction a as [|[x|j] a IH]; simpl; [reflexivity| |]; now rewrite IH.
Qed.

Lemma pumped_dispatches (l : list Z) : pumped (map Dispatch l) = [].
Proof. induction l as [|x l IH]; simpl; [reflexivity|exact IH]. Qed.

Lemma next_pump_frame (l : list Z) (j : Z) (rest : list ShellCall) :
  next_pump (map Dispatch l ++ Pump j :: rest) = Some j.
Proof. induction l as [|x l IH]; simpl; [reflexivity|exact IH]. Qed.

Lemma delivered_in_frame (x : Z) (l : list Z) (j : Z) (rest : list ShellCall) :
  In x l -> delivered_at x (map Dispatch l ++ Pump j :: rest) = Some j.
Proof.
  induction l as [|y l IH]; simpl; [tauto|]. intros Hin.
  destruct (y =? x) eqn:E.
  - apply next_pump_frame.
  - apply IH. destruct Hin as [->|Hin]; [|exact Hin].
    rewrite Z.eqb_refl in E. discriminate.
Qed.

Lemma delivered_after_frame (x : Z) (l : list Z) (j : Z) (rest : list ShellCall) :
  ~ In x l -> delivered_at x (map Dispatch l ++ Pump j :: rest) = delivered_at x rest.
Proof.
  induction l as [|y l IH]; simpl; [reflexivity|]. intros Hnin.
  destruct (y =? x) eqn:E.
  - apply Z.eqb_eq in E. tauto.
  - apply IH. tauto.
Qed.

Lemma simulate_done {W : Type} (d p : Z -> W -> W) (n : Z) (dt : Z -> Z)
  (ft : Z) (fuel : nat) (i j : Z) (w : W) :
  n <= i -> simulate d p n dt ft fuel i j w = Some w.
Proof.
  intros Hi. destruct fuel; cbn [simulate];
    destruct (i <? n) eqn:E; try reflexivity; apply Z.ltb_lt in E; lia.
Qed.

Lemma simulate_record (n : Z) (dt : Z -> Z) (ft : Z) (fuel : nat) (i j : Z)
  (acc : list ShellCall) :
  simulate record_dispatch record_pump n dt ft fuel i j acc
  = option_map (app acc)
      (simulate record_dispatch record_pump n dt ft fuel i j []).
Proof.
  pose proof (simulate_replay record_dispatch record_pump n dt ft fuel i j [] acc)
    as H.
  simpl in H. rewrite H.
  destruct (simulate record_dispatch record_pump n dt ft fuel i j []); simpl;
    [|reflexivity].
  now rewrite replay_record.
Qed.

Section Schedule.

Variable num_events : Z.
Variable delivery_time : Z -> Z.
Variable frame_time : Z.
Variable last : Z.

Hypothesis period_positive : 0 < frame_time.
Hypothesis count_is_int : num_events <= Int.max_int.
Hypothesis last_frame : 0 <= last /\ last * frame_time <= Int.max_int.
Hypothesis all_due : forall x, 0 <= x < num_events ->
  delivery_time x <= last * frame_time.

Local Abbreviation trace := (trace_from num_events delivery_time frame_time last).

Lemma tick_time (j : Z) : 0 <= j <= last -> Int.mul j frame_time = j * frame_time.
Proof.
  intros Hj. apply mul_in_range.
  unfold Int.in_range, Int.min_int, Int.max_int in *. nia.
Qed.

Lemma trace_done (j : Z) : trace num_events j [].
Proof.
  split; simpl; try reflexivity; try (intros; lia); try (intros; discriminate).
  now rewrite Z.sub_diag.
Qed.

Lemma trace_step (i j : Z) (m : nat) (tr : list ShellCall) :
  0 <= i -> i + Z.of_nat m <= num_events -> 0 <= j <= last ->
  (forall x, i <= x < i + Z.of_nat m -> delivery_time x <= j * frame_time) ->
  (i + Z.of_nat m < num_events ->
   j * frame_time < delivery_time (i + Z.of_nat m)) ->
  trace (i + Z.of_nat m) (j + 1) tr ->
  trace i j ((map Dispatch (range i m) ++ [Pump j]) ++ tr).
Proof.
  intros Hi Hm Hj Hdue Hstop [Hh Hp Ht Ho Hf].
  rewrite <- app_assoc. cbn [app].
  assert (Hin : forall x, i <= x < i + Z.of_nat m ->
                 delivered_at x (map Dispatch (range i m) ++ Pump j :: tr) = Some j).
  { intros x Hx. apply delivered_in_frame. now apply in_range_list. }
  assert (Hout : forall x, i + Z.of_nat m <= x ->
                 delivered_at x (map Dispatch (range i m) ++ Pump j :: tr)
                 = delivered_at x tr).
  { intros x Hx. apply delivered_after_frame. rewrite in_range_list. lia. }
  split.
  - rewrite handed_over_app, handed_over_dispatches. cbn [handed_over].
    rewrite Hh.
    replace (Z.to_nat (num_events - i))
      with (m + Z.to_nat (num_events - (i + Z.of_nat m)))%nat by lia.
    now rewrite range_app.
  - rewrite pumped_app, pumped_dispatches. cbn [pumped app length].
    cbn [range]. now rewrite <- Hp.
  - intros x Hx. destruct (Z.lt_ge_cases x (i + Z.of_nat m)) as [Hc|Hc].
    + exists j. rewrite Hin by lia. repeat split; try lia. apply Hdue. lia.
    + destruct (Ht x) as [jx [E [Hb Hd]]]; [lia|].
      exists jx. rewrite Hout by lia. repeat split; try assumption; lia.
  - intros x y jx jy Hxy Hy Ex Ey.
    destruct (Z.lt_ge_cases x (i + Z.of_nat m)) as [Hc|Hc].
    + rewrite Hin in Ex by lia. injection Ex as <-.
      destruct (Z.lt_ge_cases y (i + Z.of_nat m)) as [Hd|Hd].
      * rewrite Hin in Ey by lia. injection Ey as <-. lia.
      * rewrite Hout in Ey by lia. destruct (Ht y) as [jy' [E [Hb _]]]; [lia|].
        rewrite E in Ey. injection Ey as <-. lia.
    + rewrite Hout in Ex, Ey by lia. apply (Ho x y); try assumption; lia.
  - intros Hmono Hpre x jx Hx Ex Hpos.
    destruct (Z.lt_ge_cases x (i + Z.of_nat m)) as [Hc|Hc].
    + rewrite Hin in Ex by lia. injection Ex as <-. apply Hpre; lia.
    + rewrite Hout in Ex by lia. apply (Hf Hmono) with (x := x); try assumption;
        try lia.
      intros z Hz _. replace (j + 1 - 1) with j by lia.
      apply Z.lt_le_trans with (delivery_time (i + Z.of_nat m)).
      * apply Hstop. lia.
      * apply Hmono; lia.
Qed.

(** With one unit of fuel per frame up to [last], the loop runs to its end. *)
Lemma simulate_trace (fuel : nat) (i j : Z) :
  0 <= i <= num_events ->
  (i < num_events -> 0 <= j <= last /\ (Z.to_nat (last - j) < fuel)%nat) ->
  exists tr,
    simulate record_dispatch record_pump num_events delivery_time frame_time
             fuel i j [] = Some tr
    /\ trace i j tr.
Proof.
  revert i j. induction fuel as [|fuel IH]; intros i j Hi Hj.
  - assert (i = num_events) as -> by lia.
    exists []. split; [now apply simulate_done|apply trace_done].
  - destruct (Z.eq_dec i num_events) as [->|Hne].
    { exists []. split; [now apply simulate_done|apply trace_done]. }
    destruct Hj as [Hj Hfuel]; [lia|].
    cbn [simulate]. destruct (i <? num_events) eqn:Hlt;
      [|apply Z.ltb_ge in Hlt; lia].
    destruct (pump_frame_spec record_dispatch record_pump num_events
                delivery_time frame_time i j [] (proj1 Hi) count_is_int)
      as [m [E [Hall Hstop]]].
    rewrite E, replay_record, app_nil_l, (tick_time j Hj) in *.
    assert (Hm : i + Z.of_nat m <= num_events).
    { destruct m as [|m]; [lia|].
      destruct (Hall (i + Z.of_nat m)) as [H _]; lia. }
    rewrite simulate_record.
    assert (Hnext : exists tr,
               simulate record_dispatch record_pump num_events delivery_time
                        frame_time fuel (i + Z.of_nat m) (Int.add j 1) [] = Some tr
               /\ trace (i + Z.of_nat m) (j + 1) tr).
    { destruct (Z.eq_dec (i + Z.of_nat m) num_events) as [Eq|Hlt'].
      - exists []. rewrite Eq. split; [now apply simulate_done|apply trace_done].
      - assert (Hjl : j < last).
        { destruct (Z.eq_dec j last) as [->|]; [|lia].
          specialize (Hstop ltac:(lia)). specialize (all_due (i + Z.of_nat m)).
          lia. }
        assert (Hadd : Int.add j 1 = j + 1).
        { apply add_in_range.
          unfold Int.in_range, Int.min_int, Int.max_int in *. nia. }
        rewrite Hadd. apply IH; [lia|]. intros _. split; lia. }
    destruct Hnext as [tr [Etr Htr]]. rewrite Etr. simpl.
    eexists. split; [reflexivity|].
    apply trace_step; try assumption; try lia.
    intros x Hx. now apply Hall.
Qed.

End Schedule.

Lemma range_NoDup (i : Z) (m : nat) : NoDup (range i m).
Proof.
  revert i. induction m as [|m IH]; intros i; cbn [range]; constructor.
  - rewrite in_range_list. lia.
  - apply IH.
Qed.

Lemma nth_range (i : Z) (m p : nat) :
  (p < m)%nat -> nth p (range i m) 0 = i + Z.of_nat p.
Proof.
  revert i p. induction m as [|m IH]; intros i p Hp; [lia|].
  destruct p as [|p]; cbn [range nth].
  - lia.
  - rewrite IH by lia. lia.
Qed.

(** C1: coalescing.  One tick of the simulation loop, from any event index
    [i], hands over the [m] consecutive events that are due and then pumps
    exactly one frame, after all of them; the next event, if any, is not
    yet due.  On the consumer side the [m >= 1] deliveries followed by the
    begin-frame signal add exactly one frame to the record, which then
    ends with the total of events consumed: one frame, never [m]. *)
Theorem one_begin_frame_per_tick (num_events : Z) (delivery_time : Z -> Z)
  (frame_time i j : Z) :
  0 <= i -> num_events <= Int.max_int ->
  exists m : nat,
    pump_frame record_dispatch record_pump num_events delivery_time frame_time
               i j []
    = (i + Z.of_nat m, map Dispatch (range i m) ++ [Pump j])
    /\ (forall x, i <= x < i + Z.of_nat m ->
        x < num_events /\ delivery_time x <= Int.mul j frame_time)
    /\ (i + Z.of_nat m < num_events ->
        Int.mul j frame_time < delivery_time (i + Z.of_nat m))
    /\ (forall s : TestState,
        will_draw_new_frame s = true -> (1 <= m)%nat ->
        0 <= events_consumed s ->
        events_consumed s + Z.of_nat m <= Int.max_int ->
        Int.in_range (frame_drawn s + 1) ->
        run_natives (burst m) s
        = mkTestState
            (events_consumed_at_frame s ++ [events_consumed s + Z.of_nat m])
            true (events_consumed s + Z.of_nat m) (frame_drawn s + 1)).
Proof.
  intros Hi Hn.
  destruct (pump_frame_spec record_dispatch record_pump num_events
              delivery_time frame_time i j [] Hi Hn) as [m [E [Hall Hstop]]].
  exists m. rewrite E, replay_record. repeat split; try assumption.
  - now apply Hall.
  - now apply Hall.
  - intros s. apply burst_one_frame.
Qed.

Lemma one_begin_frame_per_tick_witness :
  exists m : nat,
    pump_frame record_dispatch record_pump 40 (fun i => 5 * i + 2) 10 2 2 []
    = (2 + Z.of_nat m, map Dispatch (range 2 m) ++ [Pump 2])
    /\ (forall x, 2 <= x < 2 + Z.of_nat m ->
        x < 40 /\ (fun i => 5 * i + 2) x <= Int.mul 2 10)
    /\ (2 + Z.of_nat m < 40 ->
        Int.mul 2 10 < (fun i => 5 * i + 2) (2 + Z.of_nat m))
    /\ (forall s : TestState,
        will_draw_new_frame s = true -> (1 <= m)%nat ->
        0 <= events_consumed s ->
        events_consumed s + Z.of_nat m <= Int.max_int ->
        Int.in_range (frame_drawn s + 1) ->
        run_natives (burst m) s
        = mkTestState
            (events_consumed_at_frame s ++ [events_consumed s + Z.of_nat m])
            true (events_consumed s + Z.of_nat m) (frame_drawn s + 1)).
Proof.
  apply (one_begin_frame_per_tick 40 (fun i => 5 * i + 2) 10 2 2).
  - lia.
  - vm_compute. discriminate.
Defined.

(** C2: at-most-one-frame latency.  For non-decreasing arrival times and
    ticks at the multiples of a positive [frame_time], the run completes
    and every event [i] is delivered at the first tick at or after its
    arrival: at a tick [j] with [delivery_time i <= j * frame_time], while
    every earlier tick is strictly before the arrival; hence an event that
    arrives at a time [>= 0] waits less than one frame period. *)
Theorem delivered_at_first_tick (num_events : Z) (delivery_time : Z -> Z)
  (frame_time last : Z) (fuel : nat) :
  0 < frame_time -> num_events <= Int.max_int ->
  0 <= last -> last * frame_time <= Int.max_int ->
  (forall x, 0 <= x < num_events -> delivery_time x <= last * frame_time) ->
  (forall x y, 0 <= x <= y -> y < num_events ->
               delivery_time x <= delivery_time y) ->
  (Z.to_nat last < fuel)%nat ->
  exists tr,
    schedule num_events delivery_time frame_time fuel = Some tr
    /\ forall i, 0 <= i < num_events ->
       exists j,
         delivered_at i tr = Some j /\ 0 <= j
         /\ delivery_time i <= j * frame_time
         /\ (forall j', 0 <= j' < j -> j' * frame_time < delivery_time i)
         /\ (0 <= delivery_time i ->
             j * frame_time - delivery_time i < frame_time).
Proof.
  intros Hft Hn Hl Hlast Hdue Hmono Hfuel. unfold schedule.
  destruct (Z.le_gt_cases num_events 0) as [Hle|Hgt].
  - exists []. split; [now apply simulate_done|]. intros; lia.
  - destruct (simulate_trace num_events delivery_time frame_time last Hft Hn
                (conj Hl Hlast) Hdue fuel 0 0) as [tr [E Htr]]; [lia| |].
    { intros _. split; [lia|]. now rewrite Z.sub_0_r. }
    exists tr. split; [exact E|]. intros i Hi.
    destruct (tf_tick _ _ _ _ _ _ _ Htr i Hi) as [j [Ej [Hj Hd]]].
    exists j. repeat split; try assumption; try lia.
    + intros j' Hj'.
      assert (Hprev : (j - 1) * frame_time < delivery_time i).
      { apply (tf_first _ _ _ _ _ _ _ Htr Hmono) with (x := i);
          try assumption; try lia. }
      nia.
    + intros Hpos. destruct (Z.eq_dec j 0) as [->|Hne]; [lia|].
      assert (Hprev : (j - 1) * frame_time < delivery_time i).
      { apply (tf_first _ _ _ _ _ _ _ Htr Hmono) with (x := i);
          try assumption; try lia. }
      nia.
Qed.

Lemma delivered_at_first_tick_witness :
  exists tr,
    schedule 6 (fun i => 5 * i + 2) 10 4 = Some tr
    /\ forall i, 0 <= i < 6 ->
       exists j,
         delivered_at i tr = Some j /\ 0 <= j
         /\ (fun i => 5 * i + 2) i <= j * 10
         /\ (forall j', 0 <= j' < j -> j' * 10 < (fun i => 5 * i + 2) i)
         /\ (0 <= (fun i => 5 * i + 2) i ->
             j * 10 - (fun i => 5 * i + 2) i < 10).
Proof.
  apply (delivered_at_first_tick 6 (fun i => 5 * i + 2) 10 3 4).
  - lia.
  - vm_compute. discriminate.
  - lia.
  - vm_compute. discriminate.
  - intros x Hx. cbv beta. lia.
  - intros x y Hxy Hy. cbv beta. lia.
  - simpl. lia.
Defined.

(** C3: ordering and exactly-once delivery.  The run completes and hands
    the events over in index order, each exactly once and none left out;
    an event with a smaller index is delivered at the same or an earlier
    tick; and when the arrival times are non-decreasing the events are
    delivered in non-decreasing order of arrival time. *)
Theorem delivered_once_in_order (num_events : Z) (delivery_time : Z -> Z)
  (frame_time last : Z) (fuel : nat) :
  0 < frame_time -> num_events <= Int.max_int ->
  0 <= last -> last * frame_time <= Int.max_int ->
  (forall x, 0 <= x < num_events -> delivery_time x <= last * frame_time) ->
  (Z.to_nat last < fuel)%nat ->
  exists tr,
    schedule num_events delivery_time frame_time fuel = Some tr
    /\ handed_over tr = range 0 (Z.to_nat num_events)
    /\ NoDup (handed_over tr)
    /\ (forall i, 0 <= i < num_events ->
        In i (handed_over tr) /\ exists j, delivered_at i tr = Some j)
    /\ (forall i k ji jk, 0 <= i < k -> k < num_events ->
        delivered_at i tr = Some ji -> delivered_at k tr = Some jk -> ji <= jk)
    /\ ((forall x y, 0 <= x <= y -> y < num_events ->
                     delivery_time x <= delivery_time y) ->
        forall p q : nat, (p <= q < length (handed_over tr))%nat ->
          delivery_time (nth p (handed_over tr) 0)
          <= delivery_time (nth q (handed_over tr) 0)).
Proof.
  intros Hft Hn Hl Hlast Hdue Hfuel. unfold schedule.
  destruct (Z.le_gt_cases num_events 0) as [Hle|Hgt].
  - exists []. split; [now apply simulate_done|].
    replace (Z.to_nat num_events) with 0%nat by lia. simpl.
    repeat split; try constructor; intros; simpl in *; lia.
  - destruct (simulate_trace num_events delivery_time frame_time last Hft Hn
                (conj Hl Hlast) Hdue fuel 0 0) as [tr [E Htr]]; [lia| |].
    { intros _. split; [lia|]. now rewrite Z.sub_0_r. }
    exists tr. pose proof (tf_handed _ _ _ _ _ _ _ Htr) as Hh.
    rewrite Z.sub_0_r in Hh. split; [exact E|]. rewrite Hh.
    split; [reflexivity|]. split; [apply range_NoDup|]. split; [|split].
    + intros i Hi. split.
      * apply in_range_list. lia.
      * destruct (tf_tick _ _ _ _ _ _ _ Htr i Hi) as [j [Ej _]]. now exists j.
    + intros i k ji jk Hik Hk Ei Ek.
      apply (tf_order _ _ _ _ _ _ _ Htr i k); try assumption; lia.
    + intros Hmono p q Hpq. rewrite length_range in Hpq.
      rewrite !nth_range by lia. apply Hmono; lia.
Qed.

Lemma delivered_once_in_order_witness :
  exists tr,
    schedule 4 (fun i => if i =? 3 then 1 else 10 * i) 10 3 = Some tr
    /\ handed_over tr = range 0 (Z.to_nat 4)
    /\ NoDup (handed_over tr)
    /\ (forall i, 0 <= i < 4 ->
        In i (handed_over tr) /\ exists j, delivered_at i tr = Some j)
    /\ (forall i k ji jk, 0 <= i < k -> k < 4 ->
        delivered_at i tr = Some ji -> delivered_at k tr = Some jk -> ji <= jk)
    /\ ((forall x y, 0 <= x <= y -> y < 4 ->
                     (fun i => if i =? 3 then 1 else 10 * i) x
                     <= (fun i => if i =? 3 then 1 else 10 * i) y) ->
        forall p q : nat, (p <= q < length (handed_over tr))%nat ->
          (fun i => if i =? 3 then 1 else 10 * i) (nth p (handed_over tr) 0)
          <= (fun i => if i =? 3 then 1 else 10 * i) (nth q (handed_over tr) 0)).
Proof.
  apply (delivered_once_in_order 4 (fun i => if i =? 3 then 1 else 10 * i) 10 2 3).
  - lia.
  - vm_compute. discriminate.
  - lia.
  - vm_compute. discriminate.
  - intros x Hx. cbv beta. destruct (Z.eqb_spec x 3); lia.
  - simpl. lia.
Defined.

(** ** The check of the latency model *)

Lemma quot_bounds (x b : Z) :
  0 < b ->
  x = b * (x ÷ b) + Z.rem x b
  /\ Z.abs (x ÷ b) <= Z.abs x
  /\ (0 <= x -> 0 <= Z.rem x b < b)
  /\ (x <= 0 -> - b < Z.rem x b <= 0).
Proof.
  intros Hb. pose proof (Z.quot_rem' x b) as E.
  assert (Hp : 0 <= x -> 0 <= Z.rem x b < b)
    by (intros; now apply Z.rem_bound_pos_pos).
  assert (Hq : x <= 0 -> - b < Z.rem x b <= 0)
    by (intros; now apply Z.rem_bound_pos_neg).
  repeat split; try assumption; try (now apply Hp); try (now apply Hq).
  destruct (Z.le_gt_cases 0 x) as [H|H].
  - specialize (Hp H). nia.
  - specialize (Hq ltac:(lia)). nia.
Qed.

Lemma quot_floor (x b : Z) :
  0 < b -> 0 <= Z.rem x b -> x ÷ b = x / b /\ Z.rem x b = x mod b.
Proof.
  intros Hb Hr. destruct (quot_bounds x b Hb) as [E [_ [Hp Hq]]].
  assert (Hlt : 0 <= Z.rem x b < b).
  { destruct (Z.le_gt_cases 0 x) as [H|H]; [now apply Hp|].
    specialize (Hq ltac:(lia)). lia. }
  split.
  - apply (Z.div_unique x b _ (Z.rem x b)); [now left|exact E].
  - apply (Z.mod_unique x b (x ÷ b)); [now left|exact E].
Qed.

Lemma frame_count_bounds (bl : Z) (dt : Z -> Z) (ft : Z) (k : nat) :
  0 <= frame_count bl dt ft k <= Z.of_nat k.
Proof.
  induction k as [|k IH]; cbn [frame_count]; [lia|].
  destruct (ideal_frame bl dt ft (Z.of_nat k) =? frame_count bl dt ft k); lia.
Qed.

(** Every ideal frame counted so far is the ideal frame of an earlier event. *)
Lemma frame_count_covered (bl : Z) (dt : Z -> Z) (ft : Z) (k : nat) (f : Z) :
  0 <= f < frame_count bl dt ft k ->
  exists y, 0 <= y < Z.of_nat k /\ ideal_frame bl dt ft y = f.
Proof.
  induction k as [|k IH]; cbn [frame_count]; [lia|]. intros Hf.
  destruct (Z.eqb_spec (ideal_frame bl dt ft (Z.of_nat k)) (frame_count bl dt ft k))
    as [E|E].
  - destruct (Z.eq_dec f (frame_count bl dt ft k)) as [->|Hne].
    + exists (Z.of_nat k). split; [lia|exact E].
    + destruct IH as [y [Hy Ey]]; [lia|]. exists y. split; [lia|exact Ey].
  - destruct IH as [y [Hy Ey]]; [lia|]. exists y. split; [lia|exact Ey].
Qed.

Section Validation.

Variable num_events : Z.
Variable base_latency : Z.
Variable delivery_time : Z -> Z.
Variable frame_time : Z.

Hypothesis count_is_int : num_events <= Int.max_int.
Hypothesis latency_is_int : 0 <= base_latency <= Int.max_int.
Hypothesis period_is_int : Int.in_range frame_time.
Hypothesis times_are_int : forall x, 0 <= x < num_events ->
  Int.in_range (delivery_time x)
  /\ Int.in_range (delivery_time x - base_latency).

Local Abbreviation ideal := (ideal_frame base_latency delivery_time frame_time).
Local Abbreviation latency := (random_latency base_latency delivery_time frame_time).
Local Abbreviation counted := (frame_count base_latency delivery_time frame_time).

(** One passing iteration of the checking loop, read back in terms of the
    latency model. *)
Lemma check_step (i c j : Z) :
  0 <= i < num_events -> c = counted (Z.to_nat i) ->
  Int.quot (Int.sub (delivery_time i) base_latency) frame_time = Some j ->
  0 <= Int.sub (Int.sub (delivery_time i) (Int.mul j frame_time)) base_latency
    < frame_time ->
  j < (if j =? c then Int.add c 1 else c) ->
  0 <= latency i < frame_time
  /\ ideal i < counted (Z.to_nat (i + 1))
  /\ (if j =? c then Int.add c 1 else c) = counted (Z.to_nat (i + 1)).
Proof.
  intros Hi Hc Hq Hrl Hj.
  destruct (times_are_int i Hi) as [Hdt Hx].
  assert (Hft : 0 < frame_time) by lia.
  unfold Int.quot in Hq. destruct (frame_time =? 0); [discriminate|].
  destruct ((_ =? Int.min_int) && (frame_time =? -1)); [discriminate|].
  injection Hq as Hq. rewrite (sub_in_range _ _ Hx) in Hq.
  set (x := delivery_time i - base_latency) in *.
  destruct (quot_bounds x frame_time Hft) as [E [Habs [Hp Hn]]].
  unfold Int.in_range, Int.min_int, Int.max_int in *.
  assert (Hjq : j = x ÷ frame_time) by (now rewrite <- Hq).
  assert (Hmul : Int.mul j frame_time = j * frame_time).
  { apply mul_in_range. unfold Int.in_range, Int.min_int, Int.max_int.
    subst j. destruct (Z.le_gt_cases 0 x) as [H|H].
    - specialize (Hp H). nia.
    - specialize (Hn ltac:(lia)). nia. }
  assert (Hrem : delivery_time i - j * frame_time = base_latency + Z.rem x frame_time).
  { subst j. unfold x in *. lia. }
  assert (Hsub1 : Int.sub (delivery_time i) (j * frame_time)
                  = base_latency + Z.rem x frame_time).
  { rewrite sub_in_range; [exact Hrem|]. rewrite Hrem.
    unfold Int.in_range, Int.min_int, Int.max_int.
    destruct (Z.le_gt_cases 0 x) as [H|H].
    - specialize (Hp H). unfold x in *. nia.
    - specialize (Hn ltac:(lia)). lia. }
  assert (Hsub2 : Int.sub (base_latency + Z.rem x frame_time) base_latency
                  = Z.rem x frame_time).
  { rewrite sub_in_range; [lia|].
    unfold Int.in_range, Int.min_int, Int.max_int.
    destruct (Z.le_gt_cases 0 x) as [H|H].
    - specialize (Hp H). lia.
    - specialize (Hn ltac:(lia)). lia. }
  rewrite Hmul, Hsub1, Hsub2 in Hrl.
  destruct (quot_floor x frame_time Hft (proj1 Hrl)) as [Hdiv Hmod].
  assert (Hideal : ideal i = j).
  { unfold ideal_frame. fold x. lia. }
  assert (Hcount : (if j =? c then Int.add c 1 else c) = counted (Z.to_nat (i + 1))).
  { replace (Z.to_nat (i + 1)) with (S (Z.to_nat i)) by lia.
    cbn [frame_count]. rewrite Z2Nat.id by lia. rewrite Hideal, <- Hc.
    destruct (j =? c); [|reflexivity].
    apply add_in_range. unfold Int.in_range, Int.min_int, Int.max_int.
    pose proof (frame_count_bounds base_latency delivery_time frame_time
                  (Z.to_nat i)). lia. }
  split; [|split].
  - unfold random_latency. rewrite Hideal. lia.
  - rewrite Hideal, <- Hcount. exact Hj.
  - exact Hcount.
Qed.

Lemma check_passed (k : nat) (i c c' : Z) :
  0 <= i -> c = counted (Z.to_nat i) ->
  check_delivery_time num_events base_latency delivery_time frame_time k i c
  = CheckPassed c' ->
  forall x, i <= x < i + Z.of_nat k -> x < num_events ->
    0 <= latency x < frame_time /\ ideal x < counted (Z.to_nat (x + 1)).
Proof.
  revert i c. induction k as [|k IH]; intros i c Hi Hc Hpass x Hx Hxn; [lia|].
  cbn [check_delivery_time] in Hpass.
  destruct (i <? num_events) eqn:Hlt; [apply Z.ltb_lt in Hlt|apply Z.ltb_ge in Hlt; lia].
  destruct (Int.quot (Int.sub (delivery_time i) base_latency) frame_time)
    as [j|] eqn:Hq; [|discriminate].
  destruct (0 <=? _) eqn:H1 in Hpass; [|discriminate].
  destruct (_ <? frame_time) eqn:H2 in Hpass; [|discriminate].
  destruct (j <? _) eqn:H3 in Hpass; [|discriminate].
  cbn [negb] in Hpass.
  apply Z.leb_le in H1. apply Z.ltb_lt in H2. apply Z.ltb_lt in H3.
  destruct (check_step i c j (conj Hi Hlt) Hc Hq (conj H1 H2) H3)
    as [Hl [Hid Hcount]].
  destruct (Z.eq_dec x i) as [->|Hne]; [now split|].
  rewrite (succ_below i num_events) in Hpass by assumption.
  apply (IH (i + 1) _ ltac:(lia) Hcount Hpass); lia.
Qed.

End Validation.

(** C10: the latency model is checked before anything is simulated.  For
    arguments within [int], a run that reaches the simulation loop
    satisfies the model: [base_latency >= 0] and, for every event [i] with
    ideal frame [j = floor ((delivery_time i - base_latency) / frame_time)],
    [0 <= delivery_time i - j * frame_time - base_latency < frame_time],
    [j] is below the count of ideal frames met so far, and no ideal frame
    up to [j] was skipped.  A run that does not reach the loop stops with
    the world untouched (failed assertion) or in the division by a zero
    [frame_time]. *)
Theorem latency_model_checked_before_simulation {W : Type}
  (dispatch pump : Z -> W -> W) (num_events base_latency : Z)
  (delivery_time : Z -> Z) (frame_time : Z) (fuel : nat) (w : W) :
  num_events <= Int.max_int -> base_latency <= Int.max_int ->
  Int.in_range frame_time ->
  (forall x, 0 <= x < num_events ->
     Int.in_range (delivery_time x)
     /\ Int.in_range (delivery_time x - base_latency)) ->
  (entered_simulation
     (TestSimulatedInputEvents dispatch pump num_events base_latency
        delivery_time frame_time fuel w) ->
   latency_model num_events base_latency delivery_time frame_time)
  /\ (~ entered_simulation
         (TestSimulatedInputEvents dispatch pump num_events base_latency
            delivery_time frame_time fuel w) ->
      TestSimulatedInputEvents dispatch pump num_events base_latency
        delivery_time frame_time fuel w = AssertionFailed w
      \/ TestSimulatedInputEvents dispatch pump num_events base_latency
           delivery_time frame_time fuel w = DivisionByZero).
Proof.
  intros Hn Hbl Hft Hdt. unfold TestSimulatedInputEvents.
  destruct (0 <=? base_latency) eqn:Hb; cbn [negb].
  2:{ split; [intros []|now left]. }
  apply Z.leb_le in Hb.
  destruct (check_delivery_time num_events base_latency delivery_time
              frame_time (Z.to_nat num_events) 0 0) as [c'| |] eqn:Hcheck.
  - split.
    + intros _. split; [exact Hb|]. intros i Hi.
      destruct (check_passed num_events base_latency delivery_time frame_time
                  Hn (conj Hb Hbl) Hft Hdt (Z.to_nat num_events) 0 0 c'
                  (Z.le_refl 0) eq_refl Hcheck i) as [Hl Hc]; try lia.
      split; [exact Hl|]. split; [exact Hc|]. intros f Hf.
      destruct (frame_count_covered base_latency delivery_time frame_time
                  (Z.to_nat (i + 1)) f) as [y [Hy Ey]]; [lia|].
      exists y. split; [lia|exact Ey].
    + intros Hne. exfalso. apply Hne.
      now destruct (simulate dispatch pump num_events delivery_time frame_time
                      fuel 0 0 w).
  - split; [intros []|now left].
  - split; [intros []|now right].
Qed.

Lemma latency_model_checked_before_simulation_witness :
  (entered_simulation
     (TestSimulatedInputEvents record_dispatch record_pump 40 2
        (fun i => 5 * i + 2) 10 30 []) ->
   latency_model 40 2 (fun i => 5 * i + 2) 10)
  /\ (~ entered_simulation
         (TestSimulatedInputEvents record_dispatch record_pump 40 2
            (fun i => 5 * i + 2) 10 30 []) ->
      TestSimulatedInputEvents record_dispatch record_pump 40 2
        (fun i => 5 * i + 2) 10 30 [] = AssertionFailed []
      \/ TestSimulatedInputEvents record_dispatch record_pump 40 2
           (fun i => 5 * i + 2) 10 30 [] = DivisionByZero).
Proof.
  apply (latency_model_checked_before_simulation record_dispatch record_pump
           40 2 (fun i => 5 * i + 2) 10 30 []).
  - vm_compute. discriminate.
  - vm_compute. discriminate.
  - unfold Int.in_range, Int.min_int, Int.max_int. lia.
  - intros x Hx. unfold Int.in_range, Int.min_int, Int.max_int. cbv beta. lia.
Defined.

(** ** Idle ticks *)

(** Counterexample to C7 as stated: at tick 0 no event is due (the only
    event arrives at time 5), yet the loop body makes one call into the
    shell: it pumps frame 0. *)
Lemma idle_tick_still_pumps :
  (forall x, 0 <= x < 1 -> Int.mul 0 10 < (fun _ : Z => 5) x)
  /\ pump_frame record_dispatch record_pump 1 (fun _ => 5) 10 0 0 []
     = (0, [Pump 0])
  /\ [Pump 0] <> [].
Proof.
  split; [|split].
  - intros x _. vm_compute. reflexivity.
  - reflexivity.
  - discriminate.
Qed.

(** C7, amended: a tick at which no pending event is due hands nothing to
    the shell and leaves the event index unchanged, but it still pumps
    exactly one frame.  The begin-frame callback that the pumped frame
    runs leaves the captured variables as they are when the latch is
    already clear, which is the case at the first tick and after every
    begin-frame signal. *)
Theorem idle_tick_only_pumps {W : Type} (dispatch pump : Z -> W -> W)
  (num_events : Z) (delivery_time : Z -> Z) (frame_time i j : Z) (w : W) :
  (forall x, i <= x < num_events -> Int.mul j frame_time < delivery_time x) ->
  pump_frame dispatch pump num_events delivery_time frame_time i j w
  = (i, pump j w)
  /\ (forall s, will_draw_new_frame s = true -> nativeOnBeginFrame s = s)
  /\ nativeOnBeginFrame initial_state = initial_state
  /\ (forall s, nativeOnBeginFrame (nativeOnBeginFrame s) = nativeOnBeginFrame s).
Proof.
  intros Hidle. split; [|split; [|split]].
  - unfold pump_frame.
    destruct (Z.to_nat (num_events - i)) as [|k]; cbn [deliver_due];
      [reflexivity|].
    destruct (i <? num_events) eqn:Hlt; [|reflexivity]. apply Z.ltb_lt in Hlt.
    specialize (Hidle i ltac:(lia)).
    destruct (delivery_time i <=? Int.mul j frame_time) eqn:Hdue;
      [apply Z.leb_le in Hdue; lia|reflexivity].
  - intros [v l c f] Hl. simpl in Hl. subst l. reflexivity.
  - reflexivity.
  - reflexivity.
Qed.

Lemma idle_tick_only_pumps_witness :
  pump_frame record_dispatch record_pump 1 (fun _ => 5) 10 0 0 []
  = (0, record_pump 0 [])
  /\ (forall s, will_draw_new_frame s = true -> nativeOnBeginFrame s = s)
  /\ nativeOnBeginFrame initial_state = initial_state
  /\ (forall s, nativeOnBeginFrame (nativeOnBeginFrame s) = nativeOnBeginFrame s).
Proof.
  apply (idle_tick_only_pumps record_dispatch record_pump 1 (fun _ => 5) 10 0 0 []).
  intros x _. vm_compute. reflexivity.
Defined.

(** ** Contract violations *)

(** Counterexample to C8 as stated: event 3 arrives at time 1, before
    events 1 and 2, and the run completes all the same; event 3 is handed
    over last, at the tick of time 20. *)
Lemma unordered_arrivals_are_simulated :
  (fun i => if i =? 3 then 1 else 10 * i) 3
  < (fun i => if i =? 3 then 1 else 10 * i) 2
  /\ TestSimulatedInputEvents record_dispatch record_pump 4 0
       (fun i => if i =? 3 then 1 else 10 * i) 10 5 []
     = Completed [Dispatch 0; Pump 0; Dispatch 1; Pump 1;
                  Dispatch 2; Dispatch 3; Pump 2].
Proof.
  split.
  - vm_compute. reflexivity.
  - vm_compute. reflexivity.
Qed.

(** C8, amended: when [frame_time <= 0], so that the tick times
    [j * frame_time] do not strictly increase, a run with at least one event
    and arguments within [int] never reaches the simulation loop.  A
    negative [frame_time] fails a fatal assertion, with nothing sent to the
    shell; a zero [frame_time] with a valid base latency traps in the
    division of line 96, and so does [frame_time = -1] when
    [delivery_time 0 - base_latency] is [INT_MIN]. *)
Theorem non_increasing_ticks_stop_the_run {W : Type}
  (dispatch pump : Z -> W -> W) (num_events base_latency : Z)
  (delivery_time : Z -> Z) (frame_time : Z) (fuel : nat) (w : W) :
  1 <= num_events -> frame_time <= 0 ->
  Int.in_range frame_time -> base_latency <= Int.max_int ->
  Int.in_range (delivery_time 0) ->
  Int.in_range (delivery_time 0 - base_latency) ->
  ~ entered_simulation
      (TestSimulatedInputEvents dispatch pump num_events base_latency
         delivery_time frame_time fuel w)
  /\ (frame_time < 0 ->
      ~ (delivery_time 0 - base_latency = Int.min_int /\ frame_time = -1) ->
      TestSimulatedInputEvents dispatch pump num_events base_latency
        delivery_time frame_time fuel w = AssertionFailed w)
  /\ (0 <= base_latency ->
      frame_time = 0
      \/ (delivery_time 0 - base_latency = Int.min_int /\ frame_time = -1) ->
      TestSimulatedInputEvents dispatch pump num_events base_latency
        delivery_time frame_time fuel w = DivisionByZero).
Proof.
  intros Hn Hft Hfr Hbl Hdt Hx. unfold TestSimulatedInputEvents.
  destruct (0 <=? base_latency) eqn:Hb; cbn [negb].
  2:{ apply Z.leb_gt in Hb. repeat split; try tauto. intros; lia. }
  destruct (Z.to_nat num_events) as [|k] eqn:Hk; [lia|].
  cbn [check_delivery_time].
  destruct (0 <? num_events) eqn:Hlt; [|apply Z.ltb_ge in Hlt; lia].
  rewrite (sub_in_range _ _ Hx).
  unfold Int.quot. destruct (Z.eqb_spec frame_time 0) as [E|E].
  { repeat split; try tauto. intros; lia. }
  assert (Hneg : frame_time < 0) by lia.
  destruct (Z.eqb_spec (delivery_time 0 - base_latency) Int.min_int) as [E1|E1],
             (Z.eqb_spec frame_time (-1)) as [E2|E2]; cbn [andb].
  1:{ repeat split; tauto. }
  all: match goal with
       | |- context [0 <=? ?r] =>
           destruct (Z.leb_spec 0 r) as [H0|H0];
           [destruct (Z.ltb_spec r frame_time) as [H1|H1]; [lia|]|]
       end; cbn [negb]; repeat split; try tauto; intros; lia.
Qed.

Lemma non_increasing_ticks_stop_the_run_witness :
  ~ entered_simulation
      (TestSimulatedInputEvents record_dispatch record_pump 3 0
         (fun i => 10 * i) (-10) 5 [])
  /\ (-10 < 0 ->
      ~ ((fun i => 10 * i) 0 - 0 = Int.min_int /\ -10 = -1) ->
      TestSimulatedInputEvents record_dispatch record_pump 3 0
        (fun i => 10 * i) (-10) 5 [] = AssertionFailed [])
  /\ (0 <= 0 ->
      -10 = 0 \/ ((fun i => 10 * i) 0 - 0 = Int.min_int /\ -10 = -1) ->
      TestSimulatedInputEvents record_dispatch record_pump 3 0
        (fun i => 10 * i) (-10) 5 [] = DivisionByZero).
Proof.
  apply (non_increasing_ticks_stop_the_run record_dispatch record_pump 3 0
           (fun i => 10 * i) (-10) 5 []);
    try (unfold Int.in_range, Int.min_int, Int.max_int; cbv beta); lia.
Defined.

(** ** Fuel *)

(** More fuel does not change a completed run. *)
Lemma simulate_more_fuel {W : Type} (d p : Z -> W -> W) (n : Z) (dt : Z -> Z)
  (ft : Z) (fuel extra : nat) (i j : Z) (w w' : W) :
  simulate d p n dt ft fuel i j w = Some w' ->
  simulate d p n dt ft (fuel + extra) i j w = Some w'.
Proof.
  revert i j w. induction fuel as [|fuel IH]; intros i j w.
  - cbn [simulate]. destruct (i <? n) eqn:E; [discriminate|].
    intros H. apply Z.ltb_ge in E. rewrite simulate_done by lia. exact H.
  - cbn [simulate Nat.add]. destruct (i <? n); [|tauto].
    destruct (pump_frame d p n dt ft i j w) as [i' w1]. apply IH.
Qed.

Lemma run_more_fuel {W : Type} (d p : Z -> W -> W) (n bl : Z) (dt : Z -> Z)
  (ft : Z) (fuel extra : nat) (w w' : W) :
  TestSimulatedInputEvents d p n bl dt ft fuel w = Completed w' ->
  TestSimulatedInputEvents d p n bl dt ft (fuel + extra) w = Completed w'.
Proof.
  unfold TestSimulatedInputEvents. destruct (negb (0 <=? bl)); [discriminate|].
  destruct (check_delivery_time n bl dt ft (Z.to_nat n) 0 0); try discriminate.
  destruct (simulate d p n dt ft fuel 0 0 w) as [w1|] eqn:E; [|discriminate].
  intros H. injection H as ->.
  now rewrite (simulate_more_fuel d p n dt ft fuel extra 0 0 w w' E).
Qed.

Lemma run_stable {W : Type} (d p : Z -> W -> W) (n bl : Z) (dt : Z -> Z)
  (ft : Z) (fuel extra : nat) (w : W) :
  TestSimulatedInputEvents d p n bl dt ft fuel w <> OutOfFuel ->
  TestSimulatedInputEvents d p n bl dt ft (fuel + extra) w
  = TestSimulatedInputEvents d p n bl dt ft fuel w.
Proof.
  unfold TestSimulatedInputEvents. destruct (negb (0 <=? bl)); [reflexivity|].
  destruct (check_delivery_time n bl dt ft (Z.to_nat n) 0 0); try reflexivity.
  destruct (simulate d p n dt ft fuel 0 0 w) as [w1|] eqn:E; [|congruence].
  intros _. now rewrite (simulate_more_fuel d p n dt ft fuel extra 0 0 w w1 E).
Qed.

(** ** Further properties of the harness *)

Lemma length_set_back (x : Z) (v : list Z) : length (set_back x v) = length v.
Proof.
  destruct v as [|a v]; [reflexivity|].
  destruct (exists_last (l := a :: v) ltac:(discriminate)) as [u [y E]].
  rewrite E, set_back_snoc. now rewrite !length_app.
Qed.

Lemma counts_step (c : NativeCall) (s : TestState) (calls : Z) :
  counts_ok s calls -> 0 <= calls -> calls + packets [c] <= Int.max_int ->
  counts_ok (native c s) (calls + packets [c]).
Proof.
  intros [Hf He Hs Hb] H0 Hle. destruct c.
  - change (packets [OnPointerDataPacket]) with 1 in *.
    assert (Hadd : Int.add (events_consumed s) 1 = events_consumed s + 1).
    { apply add_in_range.
    unfold Int.in_range, Int.min_int, Int.max_int in *. lia. }
    cbn [native]. unfold nativeOnPointerDataPacket. rewrite Hadd.
    destruct (will_draw_new_frame s) eqn:Hw; split; simpl.
    + rewrite add_in_range, length_app, Hf; [simpl; lia|].
      unfold Int.in_range, Int.min_int, Int.max_int in *. lia.
    + lia.
    + rewrite length_app. simpl. lia.
    + intros _ E. now destruct (events_consumed_at_frame s).
    + now rewrite length_set_back.
    + lia.
    + rewrite length_set_back. lia.
    + intros _ E. apply (Hb eq_refl). apply length_zero_iff_nil.
      rewrite <- (length_set_back (events_consumed s + 1)), E. reflexivity.
  - change (packets [OnBeginFrame]) with 0 in *. rewrite Z.add_0_r.
    split; simpl; try assumption. discriminate.
Qed.

Lemma run_counts (cs : list NativeCall) (s : TestState) (calls : Z) :
  counts_ok s calls -> 0 <= calls -> calls + packets cs <= Int.max_int ->
  counts_ok (run_natives cs s) (calls + packets cs).
Proof.
  revert s calls. induction cs as [|c cs IH]; intros s calls Hok H0 Hle.
  - change (packets []) with 0. now rewrite Z.add_0_r.
  - assert (Hsplit : packets (c :: cs) = packets [c] + packets cs).
    { rewrite !packets_cons. change (packets []) with 0. lia. }
    pose proof (packets_nonneg cs). pose proof (packets_nonneg [c]).
    rewrite Hsplit in *. rewrite run_natives_cons, Z.add_assoc.
    apply IH; [apply counts_step; try assumption| |]; lia.
Qed.

(** The counters kept beside the record agree with it: [frame_drawn] is the
    size of [events_consumed_at_frame], which the tests read as the number
    of frames drawn, and [events_consumed] is the number of packets
    received; there are never more frames than packets. *)
Theorem counters_agree_with_record (cs : list NativeCall) :
  packets cs <= Int.max_int ->
  frame_drawn (reached cs)
  = Z.of_nat (length (events_consumed_at_frame (reached cs)))
  /\ events_consumed (reached cs) = packets cs
  /\ Z.of_nat (length (events_consumed_at_frame (reached cs))) <= packets cs.
Proof.
  intros Hle.
  assert (H0 : counts_ok initial_state 0).
  { split; simpl; try reflexivity; try lia; discriminate. }
  destruct (run_counts cs initial_state 0 H0 (Z.le_refl 0)) as [Hf He Hs _];
    [lia|].
  rewrite Z.add_0_l in *. unfold reached.
  split; [exact Hf|]. split; [exact He|exact Hs].
Qed.

Lemma counters_agree_with_record_witness :
  frame_drawn (reached (burst 3 ++ burst 0 ++ burst 2))
  = Z.of_nat (length (events_consumed_at_frame
                        (reached (burst 3 ++ burst 0 ++ burst 2))))
  /\ events_consumed (reached (burst 3 ++ burst 0 ++ burst 2))
     = packets (burst 3 ++ burst 0 ++ burst 2)
  /\ Z.of_nat (length (events_consumed_at_frame
                         (reached (burst 3 ++ burst 0 ++ burst 2))))
     <= packets (burst 3 ++ burst 0 ++ burst 2).
Proof.
  apply (counters_agree_with_record (burst 3 ++ burst 0 ++ burst 2)).
  vm_compute. discriminate.
Defined.

Lemma back_defined_witness :
  events_consumed_at_frame (reached [OnPointerDataPacket]) <> [].
Proof.
  apply (back_defined [OnPointerDataPacket]).
  - vm_compute. discriminate.
  - reflexivity.
Defined.

(** Every tick pumps its frame once: in a completed run the frames pumped
    are [0, 1, 2, ...] in this order. *)
Theorem frames_pumped_once_each (num_events : Z) (delivery_time : Z -> Z)
  (frame_time last : Z) (fuel : nat) :
  0 < frame_time -> num_events <= Int.max_int ->
  0 <= last -> last * frame_time <= Int.max_int ->
  (forall x, 0 <= x < num_events -> delivery_time x <= last * frame_time) ->
  (Z.to_nat last < fuel)%nat ->
  exists tr,
    schedule num_events delivery_time frame_time fuel = Some tr
    /\ pumped tr = range 0 (length (pumped tr))
    /\ NoDup (pumped tr).
Proof.
  intros Hft Hn Hl Hlast Hdue Hfuel. unfold schedule.
  destruct (Z.le_gt_cases num_events 0) as [Hle|Hgt].
  - exists []. split; [now apply simulate_done|]. simpl.
    split; constructor.
  - destruct (simulate_trace num_events delivery_time frame_time last Hft Hn
                (conj Hl Hlast) Hdue fuel 0 0) as [tr [E Htr]]; [lia| |].
    { intros _. split; [lia|]. now rewrite Z.sub_0_r. }
    exists tr. pose proof (tf_pumped _ _ _ _ _ _ _ Htr) as Hp.
    split; [exact E|]. split; [exact Hp|].
    rewrite Hp. apply range_NoDup.
Qed.

Lemma frames_pumped_once_each_witness :
  exists tr,
    schedule 6 (fun i => 5 * i + 2) 10 4 = Some tr
    /\ pumped tr = range 0 (length (pumped tr))
    /\ NoDup (pumped tr).
Proof.
  apply (frames_pumped_once_each 6 (fun i => 5 * i + 2) 10 3 4).
  - lia.
  - vm_compute. discriminate.
  - lia.
  - vm_compute. discriminate.
  - intros x Hx. cbv beta. lia.
  - simpl. lia.
Defined.

(** ** The record and the counters, without any bound *)

Lemma last_set_back (x : Z) (v : list Z) :
  set_back x v <> [] -> last (set_back x v) 0 = x.
Proof.
  destruct v as [|a v]; [intros H; now elim H|]. intros _.
  destruct (exists_last (l := a :: v) ltac:(discriminate)) as [u [y E]].
  rewrite E, set_back_snoc. apply last_last.
Qed.

Lemma last_entry_step (c : NativeCall) (s : TestState) :
  (events_consumed_at_frame s <> [] ->
   last (events_consumed_at_frame s) 0 = events_consumed s) ->
  events_consumed_at_frame (native c s) <> [] ->
  last (events_consumed_at_frame (native c s)) 0 = events_consumed (native c s).
Proof.
  intros H. destruct c; cbn [native]; [|exact H].
  unfold nativeOnPointerDataPacket.
  destruct (will_draw_new_frame s);
    cbn [events_consumed_at_frame events_consumed]; intros Hne.
  - apply last_last.
  - now apply last_set_back.
Qed.

Lemma last_entry_run (cs : list NativeCall) (s : TestState) :
  (events_consumed_at_frame s <> [] ->
   last (events_consumed_at_frame s) 0 = events_consumed s) ->
  events_consumed_at_frame (run_natives cs s) <> [] ->
  last (events_consumed_at_frame (run_natives cs s)) 0
  = events_consumed (run_natives cs s).
Proof.
  revert s. induction cs as [|c cs IH]; intros s H; [exact H|].
  rewrite run_natives_cons. apply IH. now apply last_entry_step.
Qed.

(** The last entry of the record is the total: whenever
    [events_consumed_at_frame] is not empty after any sequence of callback
    calls, its last element is [events_consumed]. *)
Theorem record_ends_with_total (cs : list NativeCall) :
  events_consumed_at_frame (reached cs) <> [] ->
  last (events_consumed_at_frame (reached cs)) 0 = events_consumed (reached cs).
Proof.
  apply last_entry_run. intros H. now elim H.
Qed.

Lemma record_ends_with_total_witness :
  last (events_consumed_at_frame (reached (burst 3 ++ burst 2))) 0
  = events_consumed (reached (burst 3 ++ burst 2)).
Proof.
  apply (record_ends_with_total (burst 3 ++ burst 2)).
  vm_compute. discriminate.
Defined.

Lemma begin_frames_cons (c : NativeCall) (cs : list NativeCall) :
  begin_frames (c :: cs) = (if is_packet c then 0 else 1) + begin_frames cs.
Proof.
  unfold begin_frames. cbn [filter]. destruct (is_packet c); cbn [negb length];
    lia.
Qed.

Lemma frames_step (cs : list NativeCall) (s : TestState) (b : Z) :
  Z.of_nat (length (events_consumed_at_frame s))
  + (if will_draw_new_frame s then 1 else 0) <= 1 + b ->
  Z.of_nat (length (events_consumed_at_frame (run_natives cs s)))
  + (if will_draw_new_frame (run_natives cs s) then 1 else 0)
  <= 1 + b + begin_frames cs.
Proof.
  revert s b. induction cs as [|c cs IH]; intros s b H.
  - change (begin_frames []) with 0. cbn [run_natives fold_left]. lia.
  - rewrite run_natives_cons, begin_frames_cons, Z.add_assoc.
    replace (1 + b + (if is_packet c then 0 else 1))
      with (1 + (b + (if is_packet c then 0 else 1))) by lia.
    apply IH. destruct c; cbn [native is_packet].
    + unfold nativeOnPointerDataPacket.
      destruct (will_draw_new_frame s);
        cbn [events_consumed_at_frame will_draw_new_frame].
      * rewrite length_app. cbn [length]. lia.
      * rewrite length_set_back. lia.
    + cbn [nativeOnBeginFrame events_consumed_at_frame will_draw_new_frame].
      destruct (will_draw_new_frame s); lia.
Qed.

(** A frame needs a begin-frame signal: after any sequence of callback
    calls the record holds at most one frame more than the number of
    begin-frame callbacks, and at most that number while the latch is
    clear. *)
Theorem frames_bounded_by_begin_frames (cs : list NativeCall) :
  Z.of_nat (length (events_consumed_at_frame (reached cs)))
  + (if will_draw_new_frame (reached cs) then 1 else 0)
  <= 1 + begin_frames cs.
Proof.
  pose proof (frames_step cs initial_state 0) as H.
  cbn [initial_state events_consumed_at_frame will_draw_new_frame length] in H.
  unfold reached. lia.
Qed.

(** ** The check of the latency model, both ways *)

Lemma rem_nonneg_on_time (x b : Z) :
  0 < b -> (0 <= Z.rem x b <-> 0 <= x \/ (- x) mod b = 0).
Proof.
  intros Hb. destruct (quot_bounds x b Hb) as [E [_ [Hp Hn]]]. split.
  - intros Hr. destruct (Z.le_gt_cases 0 x) as [H|H]; [now left|right].
    specialize (Hn ltac:(lia)). assert (Hz : Z.rem x b = 0) by lia.
    rewrite Hz, Z.add_0_r in E.
    replace (- x) with ((- (x ÷ b)) * b) by lia. apply Z.mod_mul. lia.
  - intros [H|H]; [now apply Hp|].
    apply Z.mod_divide in H; [|lia]. destruct H as [q Hq].
    assert (Hx : x = (- q) * b) by lia.
    rewrite Hx, Z.rem_mul by lia. lia.
Qed.

Section Characterised.

Variable num_events : Z.
Variable base_latency : Z.
Variable delivery_time : Z -> Z.
Variable frame_time : Z.

Hypothesis count_is_int : num_events <= Int.max_int.
Hypothesis latency_is_int : 0 <= base_latency <= Int.max_int.
Hypothesis period_is_int : 0 < frame_time <= Int.max_int.
Hypothesis times_are_int : forall x, 0 <= x < num_events ->
  Int.in_range (delivery_time x)
  /\ Int.in_range (delivery_time x - base_latency).

Local Abbreviation ideal := (ideal_frame base_latency delivery_time frame_time).
Local Abbreviation counted := (frame_count base_latency delivery_time frame_time).
Local Abbreviation check :=
  (check_delivery_time num_events base_latency delivery_time frame_time).

Lemma period_in_range : Int.in_range frame_time.
Proof. unfold Int.in_range, Int.min_int, Int.max_int in *. lia. Qed.

(** What lines 96 and 100 compute, for arguments within [int]. *)
Lemma code_latency (i : Z) :
  0 <= i < num_events ->
  Int.quot (Int.sub (delivery_time i) base_latency) frame_time
  = Some ((delivery_time i - base_latency) ÷ frame_time)
  /\ Int.sub (Int.sub (delivery_time i)
                (Int.mul ((delivery_time i - base_latency) ÷ frame_time)
                         frame_time))
             base_latency
     = Z.rem (delivery_time i - base_latency) frame_time.
Proof.
  intros Hi. destruct (times_are_int i Hi) as [Hdt Hx].
  assert (Hft : 0 < frame_time) by lia.
  set (x := delivery_time i - base_latency) in *.
  destruct (quot_bounds x frame_time Hft) as [E [Habs [Hp Hn]]].
  unfold Int.in_range, Int.min_int, Int.max_int in *.
  assert (Hr : - frame_time < Z.rem x frame_time < frame_time).
  { destruct (Z.le_gt_cases 0 x) as [H|H].
    - specialize (Hp H). lia.
    - specialize (Hn ltac:(lia)). lia. }
  split.
  - unfold Int.quot. destruct (Z.eqb_spec frame_time 0); [lia|].
    rewrite (sub_in_range _ _ Hx). fold x.
    destruct (Z.eqb_spec frame_time (-1)); [lia|].
    now rewrite andb_false_r.
  - assert (Hmul : Int.mul (x ÷ frame_time) frame_time
                   = (x ÷ frame_time) * frame_time).
    { apply mul_in_range. unfold Int.in_range, Int.min_int, Int.max_int.
      destruct (Z.le_gt_cases 0 x) as [H|H].
      - specialize (Hp H). nia.
      - specialize (Hn ltac:(lia)). nia. }
    rewrite Hmul.
    assert (Hrem : delivery_time i - x ÷ frame_time * frame_time
                   = base_latency + Z.rem x frame_time).
    { unfold x in *. lia. }
    rewrite (sub_in_range (delivery_time i)).
    + rewrite Hrem. rewrite sub_in_range; [lia|].
      unfold Int.in_range, Int.min_int, Int.max_int. lia.
    + rewrite Hrem. unfold Int.in_range, Int.min_int, Int.max_int.
      destruct (Z.le_gt_cases 0 x) as [H|H].
      * specialize (Hp H). unfold x in *. nia.
      * specialize (Hn ltac:(lia)). lia.
Qed.

Lemma counted_next (i : Z) :
  0 <= i ->
  counted (Z.to_nat (i + 1))
  = if ideal i =? counted (Z.to_nat i) then counted (Z.to_nat i) + 1
    else counted (Z.to_nat i).
Proof.
  intros Hi. replace (Z.to_nat (i + 1)) with (S (Z.to_nat i)) by lia.
  cbn [frame_count]. now rewrite Z2Nat.id by lia.
Qed.

(** A check that passes has met, at every event, a remainder that is not
    negative. *)
Lemma check_passed_remainder (k : nat) (i c c' : Z) :
  0 <= i -> c = counted (Z.to_nat i) ->
  check k i c = CheckPassed c' ->
  forall x, i <= x < i + Z.of_nat k -> x < num_events ->
    0 <= Z.rem (delivery_time x - base_latency) frame_time.
Proof.
  revert i c. induction k as [|k IH]; intros i c Hi Hc Hpass x Hx Hxn; [lia|].
  cbn [check_delivery_time] in Hpass.
  destruct (i <? num_events) eqn:Hlt;
    [apply Z.ltb_lt in Hlt|apply Z.ltb_ge in Hlt; lia].
  destruct (code_latency i (conj Hi Hlt)) as [Hq Hl].
  rewrite Hq, Hl in Hpass.
  destruct (0 <=? _) eqn:H1 in Hpass; [|discriminate].
  destruct (_ <? frame_time) eqn:H2 in Hpass; [|discriminate].
  destruct (_ <? _) eqn:H3 in Hpass; [|discriminate].
  cbn [negb] in Hpass.
  apply Z.leb_le in H1. apply Z.ltb_lt in H2. apply Z.ltb_lt in H3.
  destruct (Z.eq_dec x i) as [->|Hne]; [exact H1|].
  rewrite <- Hl in H1, H2.
  destruct (check_step num_events base_latency delivery_time frame_time
              count_is_int latency_is_int period_in_range times_are_int
              i c _ (conj Hi Hlt) Hc Hq (conj H1 H2) H3) as [_ [_ Hcount]].
  rewrite (succ_below i num_events) in Hpass by assumption.
  apply (IH (i + 1) _ ltac:(lia) Hcount Hpass); lia.
Qed.

(** A check on events that are on time and skip no ideal frame passes. *)
Lemma check_passes (k : nat) (i c : Z) :
  0 <= i -> c = counted (Z.to_nat i) ->
  (forall x, i <= x < num_events ->
     0 <= Z.rem (delivery_time x - base_latency) frame_time
     /\ ideal x <= counted (Z.to_nat x)) ->
  exists c', check k i c = CheckPassed c'.
Proof.
  revert i c. induction k as [|k IH]; intros i c Hi Hc Hall;
    [eexists; reflexivity|].
  cbn [check_delivery_time].
  destruct (i <? num_events) eqn:Hlt;
    [apply Z.ltb_lt in Hlt|eexists; reflexivity].
  destruct (code_latency i (conj Hi Hlt)) as [Hq Hl].
  destruct (Hall i (conj (Z.le_refl i) Hlt)) as [Hr Hideal].
  assert (Hft : 0 < frame_time) by lia.
  set (x := delivery_time i - base_latency) in *.
  destruct (quot_bounds x frame_time Hft) as [E [_ [Hp Hn]]].
  assert (Hrl : 0 <= Z.rem x frame_time < frame_time).
  { destruct (Z.le_gt_cases 0 x) as [H|H]; [now apply Hp|].
    specialize (Hn ltac:(lia)). lia. }
  destruct (quot_floor x frame_time Hft Hr) as [Hdiv _].
  assert (Hj : x ÷ frame_time = ideal i) by (unfold ideal_frame; fold x; lia).
  pose proof (frame_count_bounds base_latency delivery_time frame_time
                (Z.to_nat i)) as Hb.
  assert (Hadd : Int.add c 1 = c + 1).
  { apply add_in_range. unfold Int.in_range, Int.min_int, Int.max_int in *.
    lia. }
  assert (H3 : x ÷ frame_time
               < (if x ÷ frame_time =? c then Int.add c 1 else c)).
  { rewrite Hadd. destruct (Z.eqb_spec (x ÷ frame_time) c); lia. }
  rewrite <- Hl in Hrl.
  destruct (check_step num_events base_latency delivery_time frame_time
              count_is_int latency_is_int period_in_range times_are_int
              i c _ (conj Hi Hlt) Hc Hq Hrl H3) as [_ [_ Hcount]].
  rewrite Hq. cbv zeta.
  rewrite (proj2 (Z.leb_le _ _) (proj1 Hrl)),
    (proj2 (Z.ltb_lt _ _) (proj2 Hrl)), (proj2 (Z.ltb_lt _ _) H3).
  cbn [negb].
  rewrite (succ_below i num_events) by assumption.
  apply IH; [lia|exact Hcount|]. intros y Hy. apply Hall. lia.
Qed.

Lemma check_defined (k : nat) (i c : Z) : check k i c <> CheckUndefined.
Proof.
  revert i c. induction k as [|k IH]; intros i c; cbn [check_delivery_time];
    [discriminate|].
  destruct (i <? num_events); [|discriminate].
  unfold Int.quot. destruct (Z.eqb_spec frame_time 0); [lia|].
  destruct (Z.eqb_spec frame_time (-1)); [lia|]. rewrite andb_false_r.
  destruct (negb _); [discriminate|].
  destruct (negb _); [discriminate|].
  destruct (negb _); [discriminate|]. apply IH.
Qed.

(** The check passes exactly on the sequences in which every event is on
    time and no ideal frame is skipped. *)
Lemma check_passes_iff :
  (exists c', check (Z.to_nat num_events) 0 0 = CheckPassed c')
  <-> forall i, 0 <= i < num_events ->
        on_time base_latency delivery_time frame_time i
        /\ ideal i <= counted (Z.to_nat i).
Proof.
  assert (Hft : 0 < frame_time) by lia.
  split.
  - intros [c' Hpass] i Hi. split.
    + pose proof (check_passed_remainder _ 0 0 c' (Z.le_refl 0) eq_refl Hpass i
                    ltac:(lia) ltac:(lia)) as Hr.
      apply (rem_nonneg_on_time _ _ Hft) in Hr. unfold on_time.
      replace (base_latency - delivery_time i)
        with (- (delivery_time i - base_latency)) by lia.
      destruct Hr as [H|H]; [left; lia|now right].
    + destruct (check_passed num_events base_latency delivery_time frame_time
                  count_is_int latency_is_int period_in_range times_are_int
                  _ 0 0 c' (Z.le_refl 0) eq_refl Hpass i ltac:(lia) ltac:(lia))
        as [_ Hlt].
      rewrite counted_next in Hlt by lia.
      destruct (Z.eqb_spec (ideal i) (counted (Z.to_nat i))); lia.
  - intros Hall. apply check_passes; [lia|reflexivity|].
    intros x Hx. destruct (Hall x Hx) as [Hon Hid]. split; [|exact Hid].
    apply (rem_nonneg_on_time _ _ Hft). unfold on_time in Hon.
    replace (- (delivery_time x - base_latency))
      with (base_latency - delivery_time x) by lia.
    destruct Hon as [H|H]; [left; lia|now right].
Qed.

End Characterised.

Lemma entered_iff_check_passed {W : Type} (dispatch pump : Z -> W -> W)
  (num_events base_latency : Z) (delivery_time : Z -> Z) (frame_time : Z)
  (fuel : nat) (w : W) :
  entered_simulation
    (TestSimulatedInputEvents dispatch pump num_events base_latency
       delivery_time frame_time fuel w)
  <-> 0 <= base_latency
      /\ exists c',
           check_delivery_time num_events base_latency delivery_time
             frame_time (Z.to_nat num_events) 0 0 = CheckPassed c'.
Proof.
  unfold TestSimulatedInputEvents.
  destruct (Z.leb_spec 0 base_latency) as [Hb|Hb]; cbn [negb].
  2:{ split; [intros []|intros [H _]; lia]. }
  destruct (check_delivery_time num_events base_latency delivery_time
              frame_time (Z.to_nat num_events) 0 0) as [c'| |].
  - split; [intros _; split; [exact Hb|now exists c']|intros _].
    now destruct (simulate dispatch pump num_events delivery_time frame_time
                    fuel 0 0 w).
  - split; [intros []|intros [_ [c' H]]; discriminate].
  - split; [intros []|intros [_ [c' H]]; discriminate].
Qed.

(** The check of lines 90-107 accepts exactly the arrival times of the
    latency model as the C++ evaluates it: for arguments within [int] and a
    positive [frame_time], the run reaches the simulation loop if and only
    if the base latency is not negative and every event is on time (not
    earlier than the base latency, or earlier by whole frame periods) with
    an ideal frame that is at most the number of ideal frames counted
    before it. *)
Theorem simulation_entered_iff_latency_model {W : Type}
  (dispatch pump : Z -> W -> W) (num_events base_latency : Z)
  (delivery_time : Z -> Z) (frame_time : Z) (fuel : nat) (w : W) :
  num_events <= Int.max_int -> base_latency <= Int.max_int ->
  0 < frame_time <= Int.max_int ->
  (forall x, 0 <= x < num_events ->
     Int.in_range (delivery_time x)
     /\ Int.in_range (delivery_time x - base_latency)) ->
  (entered_simulation
     (TestSimulatedInputEvents dispatch pump num_events base_latency
        delivery_time frame_time fuel w)
   <-> 0 <= base_latency
       /\ forall i, 0 <= i < num_events ->
            on_time base_latency delivery_time frame_time i
            /\ ideal_frame base_latency delivery_time frame_time i
               <= frame_count base_latency delivery_time frame_time
                    (Z.to_nat i)).
Proof.
  intros Hn Hbl Hft Hdt. rewrite entered_iff_check_passed.
  split; intros [Hb H]; (split; [exact Hb|]);
    now apply (check_passes_iff num_events base_latency delivery_time
                 frame_time Hn (conj Hb Hbl) Hft Hdt).
Qed.

Lemma simulation_entered_iff_latency_model_witness :
  entered_simulation
    (TestSimulatedInputEvents record_dispatch record_pump 40 2
       (fun i => 5 * i + 2) 10 30 [])
  <-> 0 <= 2
      /\ forall i, 0 <= i < 40 ->
           on_time 2 (fun i => 5 * i + 2) 10 i
           /\ ideal_frame 2 (fun i => 5 * i + 2) 10 i
              <= frame_count 2 (fun i => 5 * i + 2) 10 (Z.to_nat i).
Proof.
  apply (simulation_entered_iff_latency_model record_dispatch record_pump
           40 2 (fun i => 5 * i + 2) 10 30 []).
  - vm_compute. discriminate.
  - vm_compute. discriminate.
  - split; [lia|vm_compute; discriminate].
  - intros x Hx. unfold Int.in_range, Int.min_int, Int.max_int. cbv beta. lia.
Defined.

(** An event that arrives before the base latency stops the run at
    [ASSERT_GE(random_latency, 0)] unless it is early by whole frame
    periods: the division of line 96 truncates toward zero, so the latency
    left over is negative. *)
Theorem early_event_fails_the_check {W : Type}
  (dispatch pump : Z -> W -> W) (num_events base_latency : Z)
  (delivery_time : Z -> Z) (frame_time : Z) (fuel : nat) (w : W) (i : Z) :
  num_events <= Int.max_int -> base_latency <= Int.max_int ->
  0 < frame_time <= Int.max_int ->
  (forall x, 0 <= x < num_events ->
     Int.in_range (delivery_time x)
     /\ Int.in_range (delivery_time x - base_latency)) ->
  0 <= i < num_events -> delivery_time i < base_latency ->
  (base_latency - delivery_time i) mod frame_time <> 0 ->
  TestSimulatedInputEvents dispatch pump num_events base_latency
    delivery_time frame_time fuel w = AssertionFailed w.
Proof.
  intros Hn Hbl Hft Hdt Hi Hearly Hrem. unfold TestSimulatedInputEvents.
  destruct (Z.leb_spec 0 base_latency) as [Hb|Hb]; cbn [negb]; [|reflexivity].
  destruct (check_delivery_time num_events base_latency delivery_time
              frame_time (Z.to_nat num_events) 0 0) as [c'| |] eqn:E.
  - exfalso.
    destruct (proj1 (check_passes_iff num_events base_latency delivery_time
                       frame_time Hn (conj Hb Hbl) Hft Hdt)
                (ex_intro _ c' E) i Hi) as [[H|H] _]; [lia|contradiction].
  - reflexivity.
  - exfalso. now apply (check_defined num_events base_latency delivery_time
                          frame_time Hft) in E.
Qed.

Lemma early_event_fails_the_check_witness :
  TestSimulatedInputEvents record_dispatch record_pump 3 5
    (fun i => 10 * i + 2) 10 4 [] = AssertionFailed [].
Proof.
  apply (early_event_fails_the_check record_dispatch record_pump 3 5
           (fun i => 10 * i + 2) 10 4 [] 0).
  - vm_compute. discriminate.
  - vm_compute. discriminate.
  - split; [lia|vm_compute; discriminate].
  - intros x Hx. unfold Int.in_range, Int.min_int, Int.max_int. cbv beta. lia.
  - lia.
  - cbv beta. lia.
  - vm_compute. discriminate.
Defined.

(** Without events nothing happens: for [num_events <= 0] and a base
    latency that is not negative the function returns with the world as it
    was, for every [frame_time], zero included (nothing is divided), and
    without a single frame. *)
Theorem no_events_no_frames {W : Type} (dispatch pump : Z -> W -> W)
  (num_events base_latency : Z) (delivery_time : Z -> Z) (frame_time : Z)
  (fuel : nat) (w : W) :
  num_events <= 0 -> 0 <= base_latency ->
  TestSimulatedInputEvents dispatch pump num_events base_latency
    delivery_time frame_time fuel w = Completed w
  /\ schedule num_events delivery_time frame_time fuel = Some [].
Proof.
  intros Hn Hb. unfold TestSimulatedInputEvents, schedule.
  destruct (Z.leb_spec 0 base_latency); [|lia]. cbn [negb].
  replace (Z.to_nat num_events) with 0%nat by lia. cbn [check_delivery_time].
  now rewrite !simulate_done by lia.
Qed.

Lemma no_events_no_frames_witness :
  TestSimulatedInputEvents record_dispatch record_pump 0 0 (fun i => i) 0 0 []
  = Completed []
  /\ schedule 0 (fun i => i) 0 0 = Some [].
Proof.
  apply (no_events_no_frames record_dispatch record_pump 0 0 (fun i => i) 0 0
           []); lia.
Defined.

(** ** The last frame *)

Section LastFrame.

Variable num_events : Z.
Variable delivery_time : Z -> Z.
Variable frame_time : Z.
Variable last : Z.

Hypothesis period_positive : 0 < frame_time.
Hypothesis count_is_int : num_events <= Int.max_int.
Hypothesis last_frame : 0 <= last /\ last * frame_time <= Int.max_int.
Hypothesis all_due : forall x, 0 <= x < num_events ->
  delivery_time x <= last * frame_time.

(** The run ends with the frame that delivers the last event. *)
Lemma simulate_ends (fuel : nat) (i j : Z) :
  0 <= i < num_events -> 0 <= j <= last -> (Z.to_nat (last - j) < fuel)%nat ->
  exists tr len,
    simulate record_dispatch record_pump num_events delivery_time frame_time
             fuel i j [] = Some tr
    /\ pumped tr = range j (S len)
    /\ delivered_at (num_events - 1) tr = Some (j + Z.of_nat len).
Proof.
  revert i j. induction fuel as [|fuel IH]; intros i j Hi Hj Hfuel; [lia|].
  cbn [simulate]. destruct (i <? num_events) eqn:Hlt;
    [|apply Z.ltb_ge in Hlt; lia].
  destruct (pump_frame_spec record_dispatch record_pump num_events
              delivery_time frame_time i j [] (proj1 Hi) count_is_int)
    as [m [E [Hall Hstop]]].
  rewrite E, replay_record, app_nil_l,
    (tick_time frame_time last period_positive last_frame j Hj) in *.
  assert (Hm : i + Z.of_nat m <= num_events).
  { destruct m as [|m]; [lia|].
    destruct (Hall (i + Z.of_nat m)) as [H _]; lia. }
  rewrite simulate_record.
  destruct (Z.eq_dec (i + Z.of_nat m) num_events) as [Eq|Hne].
  - rewrite simulate_done by lia. cbn [option_map].
    exists (map Dispatch (range i m) ++ [Pump j]), 0%nat.
    rewrite app_nil_r. split; [reflexivity|].
    rewrite pumped_app, pumped_dispatches. split; [reflexivity|].
    rewrite Z.add_0_r. apply delivered_in_frame. apply in_range_list. lia.
  - assert (Hjl : j < last).
    { destruct (Z.eq_dec j last) as [->|]; [|lia].
      specialize (Hstop ltac:(lia)). specialize (all_due (i + Z.of_nat m)).
      lia. }
    assert (Hadd : Int.add j 1 = j + 1).
    { apply add_in_range.
      unfold Int.in_range, Int.min_int, Int.max_int in *. nia. }
    rewrite Hadd.
    destruct (IH (i + Z.of_nat m) (j + 1)) as [tr [len [Etr [Hp Hd]]]];
      [lia|lia|lia|].
    rewrite Etr. cbn [option_map].
    exists ((map Dispatch (range i m) ++ [Pump j]) ++ tr), (S len).
    split; [reflexivity|]. rewrite <- app_assoc. cbn [app]. split.
    + rewrite pumped_app, pumped_dispatches. cbn [pumped app].
      rewrite Hp. reflexivity.
    + rewrite delivered_after_frame by (rewrite in_range_list; lia).
      rewrite Hd. f_equal. lia.
Qed.

End LastFrame.

(** The simulation runs up to the last arrival and no further: for
    non-decreasing arrival times and at least one event, the run pumps the
    frames [0 .. K] where tick [K] is the first one at or after the arrival
    of the last event. *)
Theorem frames_pumped_until_last_arrival (num_events : Z)
  (delivery_time : Z -> Z) (frame_time last : Z) (fuel : nat) :
  0 < frame_time -> 0 < num_events <= Int.max_int ->
  0 <= last -> last * frame_time <= Int.max_int ->
  (forall x, 0 <= x < num_events -> delivery_time x <= last * frame_time) ->
  (forall x y, 0 <= x <= y -> y < num_events ->
               delivery_time x <= delivery_time y) ->
  (Z.to_nat last < fuel)%nat ->
  exists tr (K : nat),
    schedule num_events delivery_time frame_time fuel = Some tr
    /\ pumped tr = range 0 (S K)
    /\ delivery_time (num_events - 1) <= Z.of_nat K * frame_time
    /\ forall j, 0 <= j < Z.of_nat K ->
                 j * frame_time < delivery_time (num_events - 1).
Proof.
  intros Hft [Hpos Hn] Hl Hlast Hdue Hmono Hfuel. unfold schedule.
  destruct (simulate_ends num_events delivery_time frame_time last Hft Hn
              (conj Hl Hlast) Hdue fuel 0 0) as [tr [K [E [Hp Hd]]]];
    [lia|lia|rewrite Z.sub_0_r; exact Hfuel|].
  destruct (simulate_trace num_events delivery_time frame_time last Hft Hn
              (conj Hl Hlast) Hdue fuel 0 0) as [tr' [E' Htr]]; [lia| |].
  { intros _. split; [lia|]. now rewrite Z.sub_0_r. }
  rewrite E in E'. injection E' as <-.
  exists tr, K. split; [exact E|]. split; [exact Hp|].
  rewrite Z.add_0_l in Hd.
  destruct (tf_tick _ _ _ _ _ _ _ Htr (num_events - 1)) as [jx [Ej [_ Hle]]];
    [lia|].
  rewrite Hd in Ej. injection Ej as <-. split; [exact Hle|].
  intros j Hj.
  assert (Hprev : (Z.of_nat K - 1) * frame_time
                  < delivery_time (num_events - 1)).
  { apply (tf_first _ _ _ _ _ _ _ Htr Hmono) with (x := num_events - 1);
      try assumption; try lia. }
  nia.
Qed.

Lemma frames_pumped_until_last_arrival_witness :
  exists tr (K : nat),
    schedule 6 (fun i => 5 * i + 2) 10 4 = Some tr
    /\ pumped tr = range 0 (S K)
    /\ (fun i => 5 * i + 2) (6 - 1) <= Z.of_nat K * 10
    /\ forall j, 0 <= j < Z.of_nat K ->
                 j * 10 < (fun i => 5 * i + 2) (6 - 1).
Proof.
  apply (frames_pumped_until_last_arrival 6 (fun i => 5 * i + 2) 10 3 4).
  - lia.
  - split; [lia|vm_compute; discriminate].
  - lia.
  - vm_compute. discriminate.
  - intros x Hx. cbv beta. lia.
  - intros x y Hx Hy. cbv beta. lia.
  - simpl. lia.
Defined.

(** ** The record as running totals *)

Lemma bursts_cons (m : nat) (ms : list nat) :
  bursts (m :: ms) = burst m ++ bursts ms.
Proof. reflexivity. Qed.

Lemma running_totals_from (ms : list nat) (s : TestState) :
  will_draw_new_frame s = true ->
  0 <= frame_drawn s <= events_consumed s ->
  events_consumed s + Z.of_nat (list_sum ms) <= Int.max_int ->
  events_consumed_at_frame (run_natives (bursts ms) s)
  = events_consumed_at_frame s ++ running_totals (events_consumed s) ms
  /\ will_draw_new_frame (run_natives (bursts ms) s) = true.
Proof.
  revert s. induction ms as [|m ms IH]; intros s Hw Hfd Hle.
  - cbn [bursts map concat run_natives fold_left running_totals].
    now rewrite app_nil_r.
  - rewrite bursts_cons, run_natives_app.
    change (list_sum (m :: ms)) with (m + list_sum ms)%nat in Hle.
    destruct m as [|m].
    + cbn [burst repeat app run_natives fold_left native running_totals].
      apply (IH (nativeOnBeginFrame s));
        cbn [nativeOnBeginFrame will_draw_new_frame frame_drawn
               events_consumed]; [reflexivity|lia|lia].
    + rewrite burst_one_frame; try assumption; try lia.
      2:{ unfold Int.in_range, Int.min_int, Int.max_int in *. lia. }
      destruct (IH (mkTestState
                      (events_consumed_at_frame s
                       ++ [events_consumed s + Z.of_nat (S m)])
                      true (events_consumed s + Z.of_nat (S m))
                      (frame_drawn s + 1))) as [Hv Hw'];
        cbn [will_draw_new_frame frame_drawn events_consumed
               events_consumed_at_frame] in *; [reflexivity|lia|lia|].
      rewrite Hv, Hw'. cbn [running_totals]. rewrite <- app_assoc.
      split; reflexivity.
Qed.

(** What the record means: after the consumer calls of any number of ticks,
    delivering [ms] events each, [events_consumed_at_frame] holds one entry
    per tick that delivered at least one event, and the entry is the
    number of events delivered up to and including that tick; a tick
    without events adds nothing. *)
Theorem record_is_running_total (ms : list nat) :
  Z.of_nat (list_sum ms) <= Int.max_int ->
  events_consumed_at_frame (reached (bursts ms)) = running_totals 0 ms.
Proof.
  intros Hle. unfold reached.
  destruct (running_totals_from ms initial_state) as [H _];
    cbn [initial_state will_draw_new_frame frame_drawn events_consumed
           events_consumed_at_frame] in *; try reflexivity; try lia.
  exact H.
Qed.

Lemma record_is_running_total_witness :
  events_consumed_at_frame (reached (bursts [2; 0; 3; 1]%nat))
  = running_totals 0 [2; 0; 3; 1]%nat.
Proof.
  apply (record_is_running_total [2; 0; 3; 1]%nat).
  vm_compute. discriminate.
Defined.

(** ** The generators of the tests *)

Lemma forall_range (p : Z -> bool) (i : Z) (m : nat) :
  forallb p (range i m) = true ->
  forall x, i <= x < i + Z.of_nat m -> p x = true.
Proof.
  intros H x Hx. rewrite forallb_forall in H. apply H.
  now apply in_range_list.
Qed.

(** The two computed generators are the integer sequences their tests
    mean, on all forty events: the floating-point products and sums and the
    conversions back to [int] lose nothing.  [extreme] alternates between
    0.1 and 0.9 of a frame after the base latency of half a frame, and
    [double_sampling] gives two events per frame. *)
Theorem generators_are_exact (i : Z) :
  0 <= i < 40 ->
  Tests.extreme 10 5 i = 10 * i + 5 + (if Z.even i then 1 else 9)
  /\ Tests.double_sampling 10 2 i = 5 * i + 2
  /\ Double.to_int (0.5 * Double.of_int 10)%float = 5
  /\ Double.to_int (0.2 * Double.of_int 10)%float = 2.
Proof.
  intros Hi.
  pose proof (forall_range
                (fun i => (Tests.extreme 10 5 i
                           =? 10 * i + 5 + (if Z.even i then 1 else 9))
                          && (Tests.double_sampling 10 2 i =? 5 * i + 2))
                0 40 ltac:(vm_compute; reflexivity) i ltac:(lia)) as H.
  cbv beta in H. apply andb_true_iff in H. destruct H as [H1 H2].
  apply Z.eqb_eq in H1, H2.
  split; [exact H1|]. split; [exact H2|]. split; vm_compute; reflexivity.
Qed.

Lemma generators_are_exact_witness :
  Tests.extreme 10 5 7 = 10 * 7 + 5 + (if Z.even 7 then 1 else 9)
  /\ Tests.double_sampling 10 2 7 = 5 * 7 + 2
  /\ Double.to_int (0.5 * Double.of_int 10)%float = 5
  /\ Double.to_int (0.2 * Double.of_int 10)%float = 2.
Proof. apply (generators_are_exact 7). lia. Defined.

(** ** The sweep over base latencies *)

Lemma sweep_values_stable (rounds extra : nat) (b : float) :
  (length (sweep_values rounds b) < rounds)%nat ->
  sweep_values (rounds + extra) b = sweep_values rounds b.
Proof.
  revert b. induction rounds as [|rounds IH]; intros b Hlen;
    [simpl in Hlen; lia|].
  cbn [Nat.add sweep_values] in *. destruct (b <? 1)%float; [|reflexivity].
  f_equal. apply IH. cbn [length] in Hlen. lia.
Qed.

Lemma iphone_sweep_rounds (shell : ShellTest.Shell) (rounds fuel : nat)
  (b : float) :
  (length (sweep_values rounds b) < rounds)%nat ->
  Tests.iphone_sweep shell rounds fuel b
  = fold_right Tests.both Tests.Pass
      (map (fun b => fst (Tests.iphone_round shell fuel b))
           (sweep_values rounds b)).
Proof.
  revert b. induction rounds as [|rounds IH]; intros b Hlen; [simpl in Hlen; lia|].
  cbn [Tests.iphone_sweep sweep_values] in *.
  destruct (b <? 1)%float; [|reflexivity].
  cbn [map fold_right length] in *. f_equal.
  destruct rounds as [|rounds'].
  - cbn [sweep_values length] in Hlen.
    destruct (b + 0.1 <? 1)%float; simpl in Hlen; lia.
  - apply IH. lia.
Qed.

(** The sweep of [HandlesActualIphoneXsInputEvents] makes eleven rounds,
    not ten: ten additions of 0.1 leave [base_latency_f] just below 1.  The
    base latencies of the rounds are 0, 1000, ..., 7000, then 7999, 9000 and
    9999, and the test is the conjunction of these eleven rounds, in this
    order, whatever the shell. *)
Theorem sweep_makes_eleven_rounds (shell : ShellTest.Shell)
  (extra fuel : nat) :
  map (sweep_base_latency 10000) (sweep_values (12 + extra) 0%float)
  = [0; 1000; 2000; 3000; 4000; 5000; 6000; 7000; 7999; 9000; 9999]
  /\ Tests.HandlesActualIphoneXsInputEvents shell (12 + extra) fuel
     = fold_right Tests.both Tests.Pass
         (map (fun b => fst (Tests.iphone_round shell fuel b))
              (sweep_values (12 + extra) 0%float)).
Proof.
  assert (E : sweep_values (12 + extra) 0%float = sweep_values 12 0%float).
  { apply sweep_values_stable. vm_compute. lia. }
  split.
  - rewrite E. vm_compute. reflexivity.
  - unfold Tests.HandlesActualIphoneXsInputEvents. apply iphone_sweep_rounds.
    rewrite E. vm_compute. lia.
Qed.

(** ** The three tests, on a shell that delays a pending packet *)

Lemma test_run_stable (shell : ShellTest.Shell) (fuel extra : nat)
  (n bl : Z) (dt : Z -> Z) (ft : Z) :
  Tests.run_test shell fuel n bl dt ft <> OutOfFuel ->
  Tests.run_test shell (fuel + extra) n bl dt ft
  = Tests.run_test shell fuel n bl dt ft.
Proof. apply run_stable. Qed.

Lemma iphone_round_stable (shell : ShellTest.Shell) (fuel extra : nat)
  (b : float) :
  fst (Tests.iphone_round shell fuel b) <> Tests.Unfinished ->
  Tests.iphone_round shell (fuel + extra) b = Tests.iphone_round shell fuel b.
Proof.
  unfold Tests.iphone_round. cbv zeta. intros H.
  rewrite test_run_stable; [reflexivity|].
  intros E. rewrite E in H. now apply H.
Qed.

(** C4, on the oversampling test (lines 141-161): on the shell that delays
    a pending packet for the next frame, the run completes within 21
    frames and the test passes.  The record is [1; 3; ...; 39; 40]: the
    first tick with samples delivers one of its two samples, every later
    tick the sample held at the tick before and one of its own, and the
    last sample follows the last begin-frame signal.  Hence
    [n / 2 + 1 = 21] frames, and frame [i] records [2 i + 1 >= 2 i - 1]
    samples for [i < n / 2]. *)
Theorem oversampling_draws_one_extra_frame (extra : nat) :
  exists v,
    Tests.DelayAtMostOneEventForFasterThanVSyncInputEvents HoldOne.shell
      (21 + extra) = (Tests.Pass, v)
    /\ v = [1; 3; 5; 7; 9; 11; 13; 15; 17; 19; 21; 23; 25; 27; 29; 31; 33;
            35; 37; 39; 40]
    /\ Z.of_nat (length v) = 40 ÷ 2 + 1
    /\ forall i, 0 <= i < 40 ÷ 2 -> 2 * i - 1 <= nth (Z.to_nat i) v 0.
Proof.
  eexists. split; [|split; [reflexivity|split; [reflexivity|]]].
  - unfold Tests.DelayAtMostOneEventForFasterThanVSyncInputEvents. cbv zeta.
    rewrite test_run_stable by (vm_compute; discriminate).
    vm_compute. reflexivity.
  - intros i Hi.
    apply Z.leb_le.
    apply (forall_range
             (fun i => 2 * i - 1
                       <=? nth (Z.to_nat i)
                             [1; 3; 5; 7; 9; 11; 13; 15; 17; 19; 21; 23; 25;
                              27; 29; 31; 33; 35; 37; 39; 40] 0) 0 20);
      [vm_compute; reflexivity|].
    change (40 ÷ 2) with 20 in Hi. lia.
Qed.

(** C6, on the recorded trace (lines 163-233): on the same shell every
    round of the sweep passes.  The eleven rounds, for the base latencies
    0, 1000, ..., 7000, 7999, 9000 and 9999, each complete within 49 frames
    and record the 47 events in 47 frames, at least [n - 1 = 46]. *)
Theorem recorded_trace_keeps_its_frames (more_rounds extra : nat) :
  Tests.HandlesActualIphoneXsInputEvents HoldOne.shell (12 + more_rounds)
    (49 + extra) = Tests.Pass
  /\ map (sweep_base_latency 10000) (sweep_values (12 + more_rounds) 0%float)
     = [0; 1000; 2000; 3000; 4000; 5000; 6000; 7000; 7999; 9000; 9999]
  /\ Forall (fun b =>
               Z.of_nat (length Tests.iphone_xs_times) - 1
               <= Z.of_nat (length (snd (Tests.iphone_round HoldOne.shell
                                           (49 + extra) b))))
            (sweep_values (12 + more_rounds) 0%float).
Proof.
  assert (E : sweep_values (12 + more_rounds) 0%float = sweep_values 12 0%float).
  { apply sweep_values_stable. vm_compute. lia. }
  assert (Hrounds : forall b, In b (sweep_values 12 0%float) ->
            Tests.iphone_round HoldOne.shell (49 + extra) b
            = Tests.iphone_round HoldOne.shell 49 b
            /\ fst (Tests.iphone_round HoldOne.shell 49 b) = Tests.Pass
            /\ length (snd (Tests.iphone_round HoldOne.shell 49 b)) = 47%nat).
  { assert (Hall : forallb
              (fun b =>
                 match fst (Tests.iphone_round HoldOne.shell 49 b) with
                 | Tests.Pass => true
                 | _ => false
                 end
                 && (length (snd (Tests.iphone_round HoldOne.shell 49 b))
                     =? 47)%nat)
              (sweep_values 12 0%float) = true)
      by (vm_compute; reflexivity).
    rewrite forallb_forall in Hall. intros b Hb. specialize (Hall b Hb).
    apply andb_true_iff in Hall. destruct Hall as [Hp Hl].
    apply Nat.eqb_eq in Hl.
    destruct (fst (Tests.iphone_round HoldOne.shell 49 b)) eqn:Ev;
      try discriminate.
    split; [|split; [reflexivity|exact Hl]].
    apply iphone_round_stable. rewrite Ev. discriminate. }
  rewrite E. split; [|split].
  - unfold Tests.HandlesActualIphoneXsInputEvents.
    rewrite iphone_sweep_rounds by (rewrite E; vm_compute; lia).
    rewrite E. revert Hrounds.
    generalize (sweep_values 12 0%float) as l.
    induction l as [|b l IH]; intros H; [reflexivity|].
    cbn [map fold_right].
    destruct (H b (or_introl eq_refl)) as [-> [-> _]]. cbn [Tests.both].
    apply IH. intros b' Hb'. apply H. now right.
  - vm_compute. reflexivity.
  - apply Forall_forall. intros b Hb.
    destruct (Hrounds b Hb) as [-> [_ ->]]. vm_compute. discriminate.
Qed.

(** ** Progress: one frame per sample at the frame rate *)

Local Abbreviation dispatch_held :=
  (ShellTest.DispatchFakePointerData HoldOne.shell).
Local Abbreviation pump_held := (ShellTest.PumpOneFrame HoldOne.shell).

Lemma range_snoc (i : Z) :
  0 <= i -> range 1 (Z.to_nat (i + 1)) = range 1 (Z.to_nat i) ++ [i + 1].
Proof.
  intros Hi. replace (Z.to_nat (i + 1)) with (Z.to_nat i + 1)%nat by lia.
  rewrite range_app. cbn [range]. do 2 f_equal. lia.
Qed.

(** A packet that reaches the script when a new frame is to be drawn. *)
Lemma packet_in_new_frame (i : Z) :
  0 <= i < Int.max_int ->
  nativeOnPointerDataPacket (mkTestState (range 1 (Z.to_nat i)) true i i)
  = mkTestState (range 1 (Z.to_nat (i + 1))) false (i + 1) (i + 1).
Proof.
  intros Hi. unfold nativeOnPointerDataPacket.
  cbn [events_consumed_at_frame will_draw_new_frame events_consumed frame_drawn].
  rewrite add_in_range
    by (unfold Int.in_range, Int.min_int, Int.max_int in *; lia).
  now rewrite range_snoc by lia.
Qed.

(** The five kinds of tick that a run at the frame rate meets. *)
Lemma tick_idle (busy : bool) (i j : Z) :
  replay dispatch_held pump_held [Pump j] (at_frame_rate busy i)
  = at_frame_rate false i.
Proof. destruct busy; reflexivity. Qed.

Lemma tick_one (i j : Z) :
  0 <= i < Int.max_int ->
  replay dispatch_held pump_held [Dispatch i; Pump j] (at_frame_rate false i)
  = at_frame_rate false (i + 1).
Proof.
  intros Hi. unfold at_frame_rate.
  cbn [replay fold_left ShellTest.DispatchFakePointerData
         ShellTest.PumpOneFrame HoldOne.shell ShellTest.packet_callbacks
         ShellTest.frame_callbacks ShellTest.shell_state fst snd
         HoldOne.dispatch HoldOne.pump HoldOne.in_progress
         HoldOne.pending_packet negb run_natives native].
  now rewrite packet_in_new_frame.
Qed.

Lemma tick_one_held (i j : Z) :
  0 <= i < Int.max_int ->
  replay dispatch_held pump_held [Dispatch i; Pump j] (at_frame_rate true i)
  = at_frame_rate true (i + 1).
Proof.
  intros Hi. unfold at_frame_rate.
  cbn [replay fold_left ShellTest.DispatchFakePointerData
         ShellTest.PumpOneFrame HoldOne.shell ShellTest.packet_callbacks
         ShellTest.frame_callbacks ShellTest.shell_state fst snd
         HoldOne.dispatch HoldOne.pump HoldOne.in_progress
         HoldOne.pending_packet negb run_natives native].
  unfold nativeOnBeginFrame.
  cbn [events_consumed_at_frame events_consumed frame_drawn].
  now rewrite packet_in_new_frame.
Qed.

Lemma tick_two (i j : Z) :
  0 <= i -> i + 1 < Int.max_int ->
  replay dispatch_held pump_held [Dispatch i; Dispatch (i + 1); Pump j]
    (at_frame_rate false i)
  = at_frame_rate true (i + 2).
Proof.
  intros Hi Hle. unfold at_frame_rate.
  cbn [replay fold_left ShellTest.DispatchFakePointerData
         ShellTest.PumpOneFrame HoldOne.shell ShellTest.packet_callbacks
         ShellTest.frame_callbacks ShellTest.shell_state fst snd
         HoldOne.dispatch HoldOne.pump HoldOne.in_progress
         HoldOne.pending_packet negb run_natives native].
  rewrite packet_in_new_frame by lia.
  unfold nativeOnBeginFrame.
  cbn [events_consumed_at_frame events_consumed frame_drawn].
  rewrite packet_in_new_frame by lia.
  now replace (i + 1 + 1) with (i + 2) by lia.
Qed.

Section FrameRate.

Variable num_events : Z.
Variable base_latency : Z.
Variable delivery_time : Z -> Z.
Variable frame_time : Z.
Variable last : Z.

Hypothesis period_positive : 0 < frame_time.
Hypothesis latency_positive : 0 <= base_latency.
Hypothesis count_is_int : num_events <= Int.max_int.
Hypothesis last_frame : 0 <= last /\ last * frame_time <= Int.max_int.
Hypothesis all_due : forall x, 0 <= x < num_events ->
  delivery_time x <= last * frame_time.
Hypothesis frame_rate : forall x, 0 <= x < num_events ->
  x * frame_time + base_latency <= delivery_time x
  < (x + 1) * frame_time + base_latency.

Lemma frame_rate_run (fuel : nat) (busy : bool) (i j : Z) :
  0 <= i <= num_events ->
  (i < num_events ->
   0 <= j <= last /\ (Z.to_nat (last - j) < fuel)%nat
   /\ (0 < j -> (j - 1) * frame_time < delivery_time i)
   /\ (busy = true -> (j - 1) * frame_time < i * frame_time + base_latency)) ->
  exists busy',
    simulate dispatch_held pump_held num_events delivery_time frame_time
             fuel i j (at_frame_rate busy i)
    = Some (at_frame_rate busy' num_events).
Proof.
  revert busy i j. induction fuel as [|fuel IH]; intros busy i j Hi Hj.
  - assert (i = num_events) as -> by lia.
    exists busy. now apply simulate_done.
  - destruct (Z.eq_dec i num_events) as [->|Hne];
      [exists busy; now apply simulate_done|].
    destruct Hj as [Hj [Hfuel [Hpre Hbusy]]]; [lia|].
    cbn [simulate]. destruct (i <? num_events) eqn:Hlt;
      [|apply Z.ltb_ge in Hlt; lia].
    destruct (pump_frame_spec dispatch_held pump_held num_events
                delivery_time frame_time i j (at_frame_rate busy i)
                (proj1 Hi) count_is_int) as [m [E [Hall Hstop]]].
    rewrite E. rewrite (tick_time frame_time last period_positive last_frame j Hj)
      in Hall, Hstop.
    assert (Hm : i + Z.of_nat m <= num_events).
    { destruct m as [|m]; [lia|].
      destruct (Hall (i + Z.of_nat m)) as [H _]; lia. }
    (* at most two samples reach a tick, and one only while a frame is in
       progress *)
    assert (Hm2 : (m <= 2)%nat).
    { destruct (Nat.le_gt_cases m 2) as [H|H]; [exact H|exfalso].
      destruct (Hall (i + 2) ltac:(lia)) as [Hlt2 Hd2].
      pose proof (frame_rate i ltac:(lia)) as Fi.
      pose proof (frame_rate (i + 2) ltac:(lia)) as F2.
      destruct (Z.eq_dec j 0) as [->|Hj0]; [nia|].
      specialize (Hpre ltac:(lia)). nia. }
    assert (Hm1 : busy = true -> (m <= 1)%nat).
    { intros Hb. destruct (Nat.le_gt_cases m 1) as [H|H]; [exact H|exfalso].
      destruct (Hall (i + 1) ltac:(lia)) as [Hlt1 Hd1].
      pose proof (frame_rate (i + 1) ltac:(lia)) as F1.
      specialize (Hbusy Hb). nia. }
    assert (Hstate : exists busy',
              replay dispatch_held pump_held
                (map Dispatch (range i m) ++ [Pump j]) (at_frame_rate busy i)
              = at_frame_rate busy' (i + Z.of_nat m)
              /\ (busy' = true ->
                  j * frame_time
                  < (i + Z.of_nat m) * frame_time + base_latency)).
    { unfold Int.max_int in *.
      destruct m as [|[|[|m]]]; try lia.
      - exists false. cbn [range map app]. rewrite Z.add_0_r.
        split; [apply tick_idle|discriminate].
      - destruct busy.
        + exists true. cbn [range map app].
          split; [apply tick_one_held; unfold Int.max_int; lia|].
          intros _. specialize (Hbusy eq_refl). nia.
        + exists false. cbn [range map app].
          split; [apply tick_one; unfold Int.max_int; lia|discriminate].
      - destruct busy; [specialize (Hm1 eq_refl); lia|].
        exists true. cbn [range map app].
        split; [apply tick_two; unfold Int.max_int; lia|].
        intros _. pose proof (frame_rate i ltac:(lia)) as Fi.
        destruct (Z.eq_dec j 0) as [->|Hj0]; [nia|].
        specialize (Hpre ltac:(lia)). nia. }
    destruct Hstate as [busy' [Hstate Hinv]]. rewrite Hstate.
    destruct (Z.eq_dec (i + Z.of_nat m) num_events) as [Eq|Hlt'].
    + rewrite Eq. exists busy'. now apply simulate_done.
    + assert (Hjl : j < last).
      { destruct (Z.eq_dec j last) as [->|]; [|lia].
        specialize (Hstop ltac:(lia)). specialize (all_due (i + Z.of_nat m)).
        lia. }
      assert (Hadd : Int.add j 1 = j + 1).
      { apply add_in_range.
        unfold Int.in_range, Int.min_int, Int.max_int in *. nia. }
      rewrite Hadd. apply IH; [lia|]. intros _. split; [lia|]. split; [lia|].
      replace (j + 1 - 1) with j by lia. split; [intros _; apply Hstop; lia|].
      exact Hinv.
Qed.

Lemma frame_rate_count (k : nat) :
  Z.of_nat k <= num_events ->
  frame_count base_latency delivery_time frame_time k = Z.of_nat k.
Proof.
  induction k as [|k IH]; intros Hk; [reflexivity|].
  cbn [frame_count]. rewrite IH by lia.
  assert (Hideal : ideal_frame base_latency delivery_time frame_time (Z.of_nat k)
                   = Z.of_nat k).
  { unfold ideal_frame. pose proof (frame_rate (Z.of_nat k) ltac:(lia)) as F.
    symmetry. apply (Z.div_unique _ _ _
                       (delivery_time (Z.of_nat k) - base_latency
                        - Z.of_nat k * frame_time)); [left|]; lia. }
  rewrite Hideal, Z.eqb_refl. lia.
Qed.

End FrameRate.

(** Counterexample to C5 as stated: the oversampling input passes the
    check of the latency model (no ideal frame without a sample, every
    random latency within a frame), and its 40 samples are recorded in the
    21 frames that the oversampling test itself asserts, fewer than
    [n - 1 = 39]. *)
Lemma oversampling_draws_fewer_frames :
  Tests.run_test HoldOne.shell 21 40 2 (Tests.double_sampling 10 2) 10
  = Completed
      (HoldOne.mkState true false,
       mkTestState
         [1; 3; 5; 7; 9; 11; 13; 15; 17; 19; 21; 23; 25; 27; 29; 31; 33; 35;
          37; 39; 40] false 40 21)
  /\ ~ (40 - 1 <= 21).
Proof.
  split; [vm_compute; reflexivity|lia].
Qed.

(** C5, amended: progress bound.  When the samples come at the frame rate,
    sample [x] within the period that starts at
    [x * frame_time + base_latency] (its ideal frame is [x] and its random
    latency is within a frame), the run on the shell that delays a pending
    packet completes and every sample gets a frame of its own: [n] frames
    are recorded, frame [k] with [k + 1] samples consumed, hence at least
    [n - 1] frames.  The irregular test (lines 123-139) is such a run: its
    40 samples are recorded in 40 frames and the test passes. *)
Theorem one_frame_per_sample_at_frame_rate (num_events base_latency : Z)
  (delivery_time : Z -> Z) (frame_time last : Z) (fuel : nat) :
  0 < frame_time <= Int.max_int -> 0 <= base_latency <= Int.max_int ->
  0 <= num_events <= Int.max_int ->
  0 <= last -> last * frame_time <= Int.max_int ->
  (forall x, 0 <= x < num_events -> delivery_time x <= last * frame_time) ->
  (forall x, 0 <= x < num_events ->
     x * frame_time + base_latency <= delivery_time x
     < (x + 1) * frame_time + base_latency) ->
  (Z.to_nat last < fuel)%nat ->
  (exists w,
     Tests.run_test HoldOne.shell fuel num_events base_latency delivery_time
       frame_time = Completed w
     /\ events_consumed_at_frame (snd w) = range 1 (Z.to_nat num_events)
     /\ num_events - 1
        <= Z.of_nat (length (events_consumed_at_frame (snd w))))
  /\ (forall extra,
        Tests.MissAtMostOneFrameForIrregularInputEvents HoldOne.shell
          (42 + extra) = (Tests.Pass, range 1 40)).
Proof.
  intros Hft Hbl Hn Hl Hlast Hdue Hrate Hfuel. split.
  - assert (Hcheck : exists c',
              check_delivery_time num_events base_latency delivery_time
                frame_time (Z.to_nat num_events) 0 0 = CheckPassed c').
    { apply check_passes; try assumption; try lia; try reflexivity.
      - intros x Hx. pose proof (Hrate x Hx) as F. pose proof (Hdue x Hx).
        assert (0 <= x * frame_time) by nia.
        unfold Int.in_range, Int.min_int, Int.max_int in *. split; lia.
      - intros x Hx. pose proof (Hrate x Hx) as F.
        assert (0 <= x * frame_time) by nia. split.
        + apply Z.rem_nonneg; lia.
        + rewrite (frame_rate_count num_events base_latency delivery_time
                     frame_time Hrate (Z.to_nat x)) by lia.
          rewrite Z2Nat.id by lia. unfold ideal_frame.
          assert ((delivery_time x - base_latency) / frame_time < x + 1);
            [|lia].
          apply Z.div_lt_upper_bound; lia. }
    destruct Hcheck as [c' Hcheck].
    destruct (frame_rate_run num_events base_latency delivery_time frame_time
                last (proj1 Hft) (proj1 Hbl) (proj2 Hn) (conj Hl Hlast) Hdue
                Hrate fuel false 0 0) as [busy Hrun]; [lia| |].
    { intros _. split; [lia|]. split; [now rewrite Z.sub_0_r|].
      split; [lia|discriminate]. }
    exists (at_frame_rate busy num_events).
    unfold Tests.run_test, TestSimulatedInputEvents.
    destruct (Z.leb_spec 0 base_latency); [|lia]. cbn [negb].
    rewrite Hcheck.
    change (ShellTest.shell_start HoldOne.shell, initial_state)
      with (at_frame_rate false 0).
    rewrite Hrun. split; [reflexivity|].
    cbn [at_frame_rate snd events_consumed_at_frame].
    split; [reflexivity|]. rewrite length_range. lia.
  - intros extra.
    unfold Tests.MissAtMostOneFrameForIrregularInputEvents. cbv zeta.
    rewrite test_run_stable by (vm_compute; discriminate).
    vm_compute. reflexivity.
Qed.

Lemma one_frame_per_sample_at_frame_rate_witness :
  (exists w,
     Tests.run_test HoldOne.shell 42 40 5 (Tests.extreme 10 5) 10 = Completed w
     /\ events_consumed_at_frame (snd w) = range 1 (Z.to_nat 40)
     /\ 40 - 1 <= Z.of_nat (length (events_consumed_at_frame (snd w))))
  /\ (forall extra,
        Tests.MissAtMostOneFrameForIrregularInputEvents HoldOne.shell
          (42 + extra) = (Tests.Pass, range 1 40)).
Proof.
  apply (one_frame_per_sample_at_frame_rate 40 5 (Tests.extreme 10 5) 10 41 42).
  - split; [lia|vm_compute; discriminate].
  - split; [lia|vm_compute; discriminate].
  - split; [lia|vm_compute; discriminate].
  - lia.
  - vm_compute. discriminate.
  - intros x Hx. apply Z.leb_le.
    apply (forall_range (fun x => Tests.extreme 10 5 x <=? 41 * 10) 0 40);
      [vm_compute; reflexivity|lia].
  - intros x Hx.
    pose proof (forall_range
                  (fun x => (x * 10 + 5 <=? Tests.extreme 10 5 x)
                            && (Tests.extreme 10 5 x <? (x + 1) * 10 + 5))
                  0 40 ltac:(vm_compute; reflexivity) x ltac:(lia)) as H.
    cbv beta in H. apply andb_true_iff in H. destruct H as [H1 H2].
    apply Z.leb_le in H1. apply Z.ltb_lt in H2. now split.
  - simpl. lia.
Defined.

(** ** Semantics actions and flags *)

Lemma single_bits_spec (table : list Z) :
  single_bits table = true ->
  forall x y, In x table -> In y table -> (Z.land x y <> 0 <-> x = y).
Proof.
  intros H x y Hx Hy. unfold single_bits in H.
  rewrite forallb_forall in H. specialize (H x Hx).
  rewrite forallb_forall in H. specialize (H y Hy).
  apply Bool.eqb_prop in H.
  destruct (Z.eqb_spec x y) as [E|E], (Z.eqb_spec (Z.land x y) 0) as [E'|E'];
    try discriminate; tauto.
Qed.

Lemma bit_field_member (table l : list Z) (a : Z) :
  single_bits table = true ->
  (forall x, In x l -> In x table) -> In a table ->
  (Z.land (bit_field l) a <> 0 <-> In a l).
Proof.
  intros Ht Hl Ha. induction l as [|x l IH].
  - simpl. tauto.
  - cbn [bit_field fold_right]. fold (bit_field l).
    rewrite Z.land_lor_distr_l, Z.lor_eq_0_iff.
    pose proof (single_bits_spec table Ht x a (Hl x (or_introl eq_refl)) Ha)
      as Hx.
    assert (IH' : Z.land (bit_field l) a <> 0 <-> In a l).
    { apply IH. intros y Hy. apply Hl. now right. }
    cbn [In]. split.
    + intros Hne. destruct (Z.eq_dec (Z.land x a) 0) as [E|E].
      * right. apply IH'. tauto.
      * left. now apply Hx.
    + intros [E|Hin] [H1 H2].
      * apply Hx in E. contradiction.
      * apply IH' in Hin. contradiction.
Qed.

Lemma action_in_table (a : SemanticsAction.t) :
  declared SemanticsAction.values a ->
  In (SemanticsAction.index a) (map fst SemanticsAction.values).
Proof.
  unfold declared. cbn [map snd fst SemanticsAction.values In].
  intros H. repeat (destruct H as [<-|H]; [cbn; tauto|]). contradiction.
Qed.

Lemma flag_in_table (a : SemanticsFlags.t) :
  declared SemanticsFlags.values a ->
  In (SemanticsFlags.index a) (map fst SemanticsFlags.values).
Proof.
  unfold declared. cbn [map snd fst SemanticsFlags.values In].
  intros H. repeat (destruct H as [<-|H]; [cbn; tauto|]). contradiction.
Qed.

Lemma in_map_action (a : SemanticsAction.t) (l : list SemanticsAction.t) :
  In (SemanticsAction.index a) (map SemanticsAction.index l) <-> In a l.
Proof.
  split; [|apply in_map]. rewrite in_map_iff. intros [b [E Hb]].
  destruct a, b. cbn in E. now subst.
Qed.

Lemma in_map_flag (a : SemanticsFlags.t) (l : list SemanticsFlags.t) :
  In (SemanticsFlags.index a) (map SemanticsFlags.index l) <-> In a l.
Proof.
  split; [|apply in_map]. rewrite in_map_iff. intros [b [E Hb]].
  destruct a, b. cbn in E. now subst.
Qed.

(** The [actions] and [flags] bit fields decode: in the bit field made of
    the indices of any declared actions (or flags), the bit of a declared
    action (or flag) is set exactly when that action (or flag) was put
    in. *)
Theorem bit_fields_decode :
  (forall (l : list SemanticsAction.t) (a : SemanticsAction.t),
     Forall (declared SemanticsAction.values) l ->
     declared SemanticsAction.values a ->
     (Z.land (bit_field (map SemanticsAction.index l))
             (SemanticsAction.index a) <> 0 <-> In a l))
  /\ (forall (l : list SemanticsFlags.t) (a : SemanticsFlags.t),
        Forall (declared SemanticsFlags.values) l ->
        declared SemanticsFlags.values a ->
        (Z.land (bit_field (map SemanticsFlags.index l))
                (SemanticsFlags.index a) <> 0 <-> In a l)).
Proof.
  split; intros l a Hl Ha; rewrite Forall_forall in Hl.
  - rewrite <- in_map_action.
    apply (bit_field_member (map fst SemanticsAction.values));
      [reflexivity| |now apply action_in_table].
    intros x Hx. apply in_map_iff in Hx. destruct Hx as [b [<- Hb]].
    apply action_in_table. now apply Hl.
  - rewrite <- in_map_flag.
    apply (bit_field_member (map fst SemanticsFlags.values));
      [reflexivity| |now apply flag_in_table].
    intros x Hx. apply in_map_iff in Hx. destruct Hx as [b [<- Hb]].
    apply flag_in_table. now apply Hl.
Qed.

Lemma bit_fields_decode_witness :
  (Z.land (bit_field (map SemanticsAction.index
                        [SemanticsAction.tap; SemanticsAction.scrollUp]))
          (SemanticsAction.index SemanticsAction.scrollUp) <> 0
   <-> In SemanticsAction.scrollUp
          [SemanticsAction.tap; SemanticsAction.scrollUp])
  /\ (Z.land (bit_field (map SemanticsFlags.index [SemanticsFlags.isButton]))
             (SemanticsFlags.index SemanticsFlags.isFocused) <> 0
      <-> In SemanticsFlags.isFocused [SemanticsFlags.isButton]).
Proof.
  split.
  - apply (proj1 bit_fields_decode).
    + repeat constructor; unfold declared; simpl; tauto.
    + unfold declared; simpl; tauto.
  - apply (proj2 bit_fields_decode).
    + repeat constructor; unfold declared; simpl; tauto.
    + unfold declared; simpl; tauto.
Defined.

Lemma action_lookup_index (k : Z) (a : SemanticsAction.t) :
  map_lookup k SemanticsAction.values = Some a -> SemanticsAction.index a = k.
Proof.
  unfold SemanticsAction.values. cbn [map_lookup].
  repeat match goal with
         | |- context [?c =? k] =>
             destruct (Z.eqb_spec c k); [intros [= <-]; assumption|]
         end.
  discriminate.
Qed.

Lemma flag_lookup_index (k : Z) (a : SemanticsFlags.t) :
  map_lookup k SemanticsFlags.values = Some a -> SemanticsFlags.index a = k.
Proof.
  unfold SemanticsFlags.values. cbn [map_lookup].
  repeat match goal with
         | |- context [?c =? k] =>
             destruct (Z.eqb_spec c k); [intros [= <-]; assumption|]
         end.
  discriminate.
Qed.

Lemma action_toString_lookup (a : SemanticsAction.t) :
  SemanticsAction.toString a <> None
  <-> map_lookup (SemanticsAction.index a) SemanticsAction.values = Some a.
Proof.
  destruct a as [z]. unfold SemanticsAction.toString, SemanticsAction.values.
  cbn [map_lookup SemanticsAction.index].
  repeat match goal with
         | |- context [z =? ?c] =>
             rewrite (Z.eqb_sym z c);
             destruct (Z.eqb_spec c z);
             [subst z; split; [reflexivity|discriminate]|]
         end.
  split; [congruence|discriminate].
Qed.

Lemma flag_toString_lookup (a : SemanticsFlags.t) :
  SemanticsFlags.toString a <> None
  <-> map_lookup (SemanticsFlags.index a) SemanticsFlags.values = Some a.
Proof.
  destruct a as [z]. unfold SemanticsFlags.toString, SemanticsFlags.values.
  cbn [map_lookup SemanticsFlags.index].
  repeat match goal with
         | |- context [z =? ?c] =>
             rewrite (Z.eqb_sym z c);
             destruct (Z.eqb_spec c z);
             [subst z; split; [reflexivity|discriminate]|]
         end.
  split; [congruence|discriminate].
Qed.

Lemma action_toString_inj (a b : SemanticsAction.t) :
  SemanticsAction.toString a <> None ->
  SemanticsAction.toString a = SemanticsAction.toString b -> a = b.
Proof.
  destruct a as [x], b as [y]. unfold SemanticsAction.toString.
  cbn [SemanticsAction.index].
  repeat match goal with
         | |- context [x =? ?c] => destruct (Z.eqb_spec x c); [subst x|]
         end;
  try congruence; intros _;
  repeat match goal with
         | |- context [y =? ?c] => destruct (Z.eqb_spec y c); [subst y|]
         end;
  try reflexivity; discriminate.
Qed.

Lemma flag_toString_inj (a b : SemanticsFlags.t) :
  SemanticsFlags.toString a <> None ->
  SemanticsFlags.toString a = SemanticsFlags.toString b -> a = b.
Proof.
  destruct a as [x], b as [y]. unfold SemanticsFlags.toString.
  cbn [SemanticsFlags.index].
  repeat match goal with
         | |- context [x =? ?c] => destruct (Z.eqb_spec x c); [subst x|]
         end;
  try congruence; intros _;
  repeat match goal with
         | |- context [y =? ?c] => destruct (Z.eqb_spec y c); [subst y|]
         end;
  try reflexivity; discriminate.
Qed.

(** [values] and [toString] agree, for actions and for flags: the entry of
    [values] under a key is the object with that index, [toString] is not
    [null] exactly on the objects whose index is a key of [values], and
    two objects with the same non-null name are equal. *)
Theorem values_agree_with_toString :
  (forall k a, map_lookup k SemanticsAction.values = Some a ->
               SemanticsAction.index a = k)
  /\ (forall a, SemanticsAction.toString a <> None
                <-> map_lookup (SemanticsAction.index a) SemanticsAction.values
                    = Some a)
  /\ (forall a b, SemanticsAction.toString a <> None ->
                  SemanticsAction.toString a = SemanticsAction.toString b ->
                  a = b)
  /\ (forall k a, map_lookup k SemanticsFlags.values = Some a ->
                  SemanticsFlags.index a = k)
  /\ (forall a, SemanticsFlags.toString a <> None
                <-> map_lookup (SemanticsFlags.index a) SemanticsFlags.values
                    = Some a)
  /\ (forall a b, SemanticsFlags.toString a <> None ->
                  SemanticsFlags.toString a = SemanticsFlags.toString b ->
                  a = b).
Proof.
  split; [exact action_lookup_index|].
  split; [exact action_toString_lookup|].
  split; [exact action_toString_inj|].
  split; [exact flag_lookup_index|].
  split; [exact flag_toString_lookup|exact flag_toString_inj].
Qed.

(** [updateNode] checks the transform before anything else is read: a
    transform that is not [null] and has not 16 entries gives the
    [ArgumentError], whatever the other arguments; the native method is
    reached only with a transform of exactly 16 entries and a [rect] that is
    not [null], and then the text direction it receives is 0 exactly for
    [null] and the enum index plus one otherwise. *)
Theorem updateNode_checks_before_native {Rect TextDirection : Type}
  (left top right bottom : Rect -> float) (index : TextDirection -> Z)
  (id flags actions : option Z) (rect : option Rect)
  (label hint value increasedValue decreasedValue : option string)
  (textDirection : option TextDirection) (transform : option (list float))
  (children : option (list Z)) :
  (forall d, 0 <= index d) ->
  match SemanticsUpdateBuilder.updateNode Rect left top right bottom
          TextDirection index id flags actions rect label hint value
          increasedValue decreasedValue textDirection transform children with
  | inr call =>
      exists entries r,
        transform = Some entries /\ length entries = 16%nat /\ rect = Some r
        /\ SemanticsUpdateBuilder.arg_transform call = entries
        /\ (SemanticsUpdateBuilder.arg_textDirection call = 0
            <-> textDirection = None)
        /\ (forall d, textDirection = Some d ->
                      SemanticsUpdateBuilder.arg_textDirection call - 1
                      = index d)
  | inl (SemanticsUpdateBuilder.ArgumentError _) =>
      exists entries, transform = Some entries /\ length entries <> 16%nat
  | inl SemanticsUpdateBuilder.NoSuchMethodError =>
      transform = None
      \/ (exists entries, transform = Some entries /\ length entries = 16%nat)
         /\ rect = None
  end.
Proof.
  intros Hindex. unfold SemanticsUpdateBuilder.updateNode.
  destruct transform as [entries|]; [|now left].
  destruct (Nat.eqb_spec (length entries) 16) as [E|E]; cbn [negb].
  - destruct rect as [r|].
    + exists entries, r. cbn [SemanticsUpdateBuilder.arg_transform
                              SemanticsUpdateBuilder.arg_textDirection].
      repeat split; try assumption.
      * destruct textDirection as [d|]; [|reflexivity].
        specialize (Hindex d). lia.
      * now intros ->.
      * intros d ->. lia.
    + right. split; [|reflexivity]. now exists entries.
  - now exists entries.
Qed.

Lemma updateNode_checks_before_native_witness :
  match SemanticsUpdateBuilder.updateNode unit (fun _ => 0%float)
          (fun _ => 0%float) (fun _ => 1%float) (fun _ => 1%float)
          bool (fun d : bool => if d then 1 else 0)
          (Some 0) (Some 8) (Some 1) (Some tt) None None None None None
          (Some true) (Some (repeat 0%float 16)) None with
  | inr call =>
      exists entries r,
        Some (repeat 0%float 16) = Some entries /\ length entries = 16%nat
        /\ Some tt = Some r
        /\ SemanticsUpdateBuilder.arg_transform call = entries
        /\ (SemanticsUpdateBuilder.arg_textDirection call = 0
            <-> Some true = None)
        /\ (forall d, Some true = Some d ->
                      SemanticsUpdateBuilder.arg_textDirection call - 1
                      = (fun d : bool => if d then 1 else 0) d)
  | inl (SemanticsUpdateBuilder.ArgumentError _) =>
      exists entries,
        Some (repeat 0%float 16) = Some entries /\ length entries <> 16%nat
  | inl SemanticsUpdateBuilder.NoSuchMethodError =>
      Some (repeat 0%float 16) = None
      \/ (exists entries,
            Some (repeat 0%float 16) = Some entries
            /\ length entries = 16%nat)
         /\ Some tt = None
  end.
Proof.
  apply (updateNode_checks_before_native (fun _ : unit => 0%float)
           (fun _ => 0%float) (fun _ => 1%float) (fun _ => 1%float)
           (fun d : bool => if d then 1 else 0)
           (Some 0) (Some 8) (Some 1) (Some tt) None None None None None
           (Some true) (Some (repeat 0%float 16)) None).
  intros d. destruct d; lia.
Defined.

(** ** Paths of the script runner *)

Import StdString DartController.

Lemma starts_with_app (f l : list ascii) : starts_with f (f ++ l) = true.
Proof.
  induction f as [|a f IH]; [reflexivity|]. cbn [app starts_with].
  now rewrite Ascii.eqb_refl, IH.
Qed.

Lemma starts_with_split (f l : list ascii) :
  starts_with f l = true -> l = f ++ skipn (length f) l.
Proof.
  revert l. induction f as [|a f IH]; intros l H; [reflexivity|].
  destruct l as [|b l]; [discriminate|]. cbn [starts_with] in H.
  apply andb_true_iff in H. destruct H as [E H]. apply Ascii.eqb_eq in E.
  subst b. cbn [length skipn app]. f_equal. now apply IH.
Qed.

Lemma starts_with_length (f l : list ascii) :
  starts_with f l = true -> (length f <= length l)%nat.
Proof.
  intros H. rewrite (starts_with_split f l H), length_app. lia.
Qed.

(** What [find_from] returns: the first offset at which the needle is read. *)
Lemma find_from_none (f l : list ascii) (pos : nat) :
  find_from f l pos = None -> absent f l.
Proof.
  revert pos. induction l as [|a l IH]; intros pos H i; cbn [find_from] in H.
  - destruct (starts_with f []) eqn:E; [discriminate|].
    now destruct i.
  - destruct (starts_with f (a :: l)) eqn:E; [discriminate|].
    destruct i as [|i]; [exact E|]. cbn [skipn]. exact (IH _ H i).
Qed.

Lemma absent_head (f l : list ascii) : absent f l -> starts_with f l = false.
Proof. intros H. exact (H 0%nat). Qed.

Lemma absent_tail (f : list ascii) (a : ascii) (l : list ascii) :
  absent f (a :: l) -> absent f l.
Proof. intros H i. exact (H (S i)). Qed.

Lemma absent_find_from (f l : list ascii) (pos : nat) :
  absent f l -> find_from f l pos = None.
Proof.
  revert pos. induction l as [|a l IH]; intros pos H; cbn [find_from];
    rewrite (absent_head _ _ H); [reflexivity|].
  apply IH. exact (absent_tail _ _ _ H).
Qed.

Lemma find_from_some (f l : list ascii) (pos p : nat) :
  find_from f l pos = Some p ->
  exists pre post,
    l = pre ++ f ++ post /\ p = (pos + length pre)%nat
    /\ forall i, (i < length pre)%nat -> starts_with f (skipn i l) = false.
Proof.
  revert pos. induction l as [|a l IH]; intros pos H; cbn [find_from] in H.
  - destruct (starts_with f []) eqn:E; [|discriminate]. injection H as <-.
    exists [], (skipn (length f) []). split; [exact (starts_with_split _ _ E)|].
    split; [simpl; lia|]. simpl. intros; lia.
  - destruct (starts_with f (a :: l)) eqn:E.
    + injection H as <-.
      exists [], (skipn (length f) (a :: l)).
      split; [exact (starts_with_split _ _ E)|].
      split; [simpl; lia|]. simpl. intros; lia.
    + destruct (IH _ H) as [pre [post [El [Ep Hno]]]].
      exists (a :: pre), post. split; [now rewrite El|].
      split; [simpl; lia|]. intros i Hi. destruct i as [|i]; [exact E|].
      cbn [skipn]. apply Hno. simpl in Hi. lia.
Qed.

Lemma find_at (done rest f : list ascii) :
  find (done ++ rest) f (length done) = find_from f rest (length done).
Proof.
  unfold find. rewrite length_app.
  destruct (Nat.ltb_spec (length done + length rest) (length done)); [lia|].
  now rewrite skipn_app, skipn_all, Nat.sub_diag.
Qed.

Lemma replace_at (done pre f post r : list ascii) :
  replace (done ++ pre ++ f ++ post) (length done + length pre) (length f) r
  = (done ++ pre ++ r) ++ post.
Proof.
  unfold replace.
  replace (done ++ pre ++ f ++ post) with ((done ++ pre) ++ f ++ post)
    by now rewrite <- app_assoc.
  rewrite <- length_app.
  rewrite firstn_app, firstn_all, Nat.sub_diag, firstn_O, app_nil_r.
  replace ((done ++ pre) ++ f ++ post) with (((done ++ pre) ++ f) ++ post)
    by now rewrite <- !app_assoc.
  rewrite <- length_app, skipn_app, skipn_all, Nat.sub_diag. cbn [skipn app].
  now rewrite <- !app_assoc.
Qed.

(** The pass does not depend on the bound once it covers the text. *)
Lemma replace_from_enough (f r : list ascii) (n m : nat) (l : list ascii) :
  f <> [] -> (length l <= n)%nat -> (length l <= m)%nat ->
  replace_from n f r l = replace_from m f r l.
Proof.
  intros Hf. revert m l. induction n as [|n IH]; intros m l Hn Hm.
  - destruct l; [|simpl in Hn; lia]. destruct m; [reflexivity|].
    cbn [replace_from]. destruct f; [congruence|]. reflexivity.
  - destruct m as [|m].
    + destruct l; [|simpl in Hm; lia]. cbn [replace_from].
      destruct f; [congruence|]. reflexivity.
    + cbn [replace_from]. destruct (starts_with f l) eqn:E.
      * f_equal. pose proof (starts_with_length f l E) as Hl.
        assert (0 < length f)%nat by (destruct f; [congruence|simpl; lia]).
        apply IH; rewrite length_skipn; lia.
      * destruct l as [|a l]; [reflexivity|]. f_equal.
        apply IH; simpl in *; lia.
Qed.

Lemma replace_from_copy (f r pre rest : list ascii) (n : nat) :
  f <> [] ->
  (forall i, (i < length pre)%nat -> starts_with f (skipn i (pre ++ rest)) = false) ->
  (length (pre ++ rest) <= n)%nat ->
  replace_from n f r (pre ++ rest)
  = pre ++ replace_from (n - length pre) f r rest.
Proof.
  intros Hf. revert n. induction pre as [|a pre IH]; intros n Hno Hn.
  - cbn [app length]. now rewrite Nat.sub_0_r.
  - destruct n as [|n]; [simpl in Hn; lia|].
    cbn [replace_from app length Nat.sub].
    pose proof (Hno 0%nat ltac:(simpl; lia)) as H0. cbn [skipn app] in H0.
    rewrite H0. f_equal.
    apply IH.
    + intros i Hi. apply (Hno (S i)). simpl. lia.
    + simpl in Hn. lia.
Qed.

Lemma replace_from_absent (f r l : list ascii) (n : nat) :
  absent f l -> replace_from n f r l = l.
Proof.
  revert l. induction n as [|n IH]; intros l H; [reflexivity|].
  cbn [replace_from]. rewrite (absent_head _ _ H).
  destruct l as [|a l]; [reflexivity|]. f_equal. apply IH.
  exact (absent_tail _ _ _ H).
Qed.

(** The loop, from a state in which [done] is finished and [rest] is
    still to be searched. *)
Lemma FindAndReplace_loop_pass (f r : list ascii) (fuel : nat)
  (done rest : list ascii) :
  f <> [] -> (length rest < fuel)%nat ->
  FindAndReplace_loop fuel f r (done ++ rest) (length done)
  = Some (done ++ replace_all f r rest).
Proof.
  intros Hf. revert done rest.
  induction fuel as [|fuel IH]; intros done rest Hfuel; [lia|].
  cbn [FindAndReplace_loop]. rewrite find_at.
  destruct (find_from f rest (length done)) as [p|] eqn:E.
  - destruct (find_from_some _ _ _ _ E) as [pre [post [El [Ep Hno]]]].
    subst rest p. rewrite replace_at.
    replace (length done + length pre + length r)%nat
      with (length (done ++ pre ++ r)) by (rewrite !length_app; lia).
    assert (0 < length f)%nat by (destruct f; [congruence|simpl; lia]).
    rewrite IH by (rewrite !length_app in Hfuel; lia).
    f_equal. rewrite <- !app_assoc. f_equal. unfold replace_all.
    rewrite (replace_from_copy f r pre (f ++ post) _ Hf Hno (le_n _)).
    f_equal.
    assert (Hlen : (length (pre ++ f ++ post) - length pre
                    = S (length (f ++ post) - 1))%nat).
    { rewrite !length_app. lia. }
    rewrite Hlen. cbn [replace_from]. rewrite starts_with_app.
    rewrite skipn_app, skipn_all, Nat.sub_diag. cbn [skipn app]. f_equal.
    apply replace_from_enough; [assumption| |]; rewrite ?length_app; lia.
  - f_equal. f_equal. unfold replace_all. symmetry.
    apply replace_from_absent. exact (find_from_none _ _ _ E).
Qed.

Lemma replace_all_nil (f r : list ascii) : replace_all f r [] = [].
Proof. reflexivity. Qed.

Lemma replace_all_match (f r l : list ascii) :
  f <> [] -> replace_all f r (f ++ l) = r ++ replace_all f r l.
Proof.
  intros Hf. unfold replace_all.
  assert (0 < length f)%nat by (destruct f; [congruence|simpl; lia]).
  assert (Hlen : length (f ++ l) = S (length (f ++ l) - 1)).
  { rewrite length_app. lia. }
  rewrite Hlen. cbn [replace_from]. rewrite starts_with_app.
  rewrite skipn_app, skipn_all, Nat.sub_diag. cbn [skipn app]. f_equal.
  apply replace_from_enough; [assumption| |]; rewrite ?length_app; lia.
Qed.

Lemma replace_all_copy (f r : list ascii) (a : ascii) (l : list ascii) :
  starts_with f (a :: l) = false ->
  replace_all f r (a :: l) = a :: replace_all f r l.
Proof.
  intros H. unfold replace_all. cbn [length replace_from]. now rewrite H.
Qed.

Lemma FindAndReplace_absent (fuel : nat) (str f r : list ascii) :
  absent f str -> FindAndReplace (S fuel) str f r = Some str.
Proof.
  intros H. unfold FindAndReplace. cbn [FindAndReplace_loop].
  change str with ([] ++ str) at 1. change 0%nat with (length (@nil ascii)).
  rewrite find_at. now rewrite (absent_find_from _ _ _ H).
Qed.

Lemma loop_empty_pattern (r : list ascii) (fuel : nat) (rStr : list ascii)
  (pos : nat) :
  (pos <= length rStr)%nat -> FindAndReplace_loop fuel [] r rStr pos = None.
Proof.
  revert rStr pos. induction fuel as [|fuel IH]; intros rStr pos Hpos;
    [reflexivity|].
  cbn [FindAndReplace_loop]. unfold find.
  destruct (Nat.ltb_spec (length rStr) pos); [lia|].
  assert (E : find_from [] (skipn pos rStr) pos = Some pos).
  { destruct (skipn pos rStr); reflexivity. }
  rewrite E. apply IH. unfold replace.
  rewrite !length_app, length_firstn, length_skipn. lia.
Qed.

Lemma absent_cons (f : list ascii) (a : ascii) (l : list ascii) :
  starts_with f (a :: l) = false -> absent f l -> absent f (a :: l).
Proof. intros H0 H i. destruct i as [|i]; [exact H0|exact (H i)]. Qed.

Lemma absent_nil (f : list ascii) : f <> [] -> absent f [].
Proof. intros Hf i. destruct f; [congruence|]. now destruct i. Qed.

Lemma length_replace_from (f r : list ascii) (n : nat) (l : list ascii) :
  (length r <= length f)%nat ->
  (length (replace_from n f r l) <= length l)%nat.
Proof.
  intros Hr. revert l. induction n as [|n IH]; intros l; [reflexivity|].
  cbn [replace_from]. destruct (starts_with f l) eqn:E.
  - pose proof (starts_with_length _ _ E). specialize (IH (skipn (length f) l)).
    rewrite length_app. rewrite length_skipn in IH. lia.
  - destruct l as [|a l]; [reflexivity|]. specialize (IH l). simpl. lia.
Qed.

Local Abbreviation pair_of_backslashes := [backslash; backslash].

Lemma sanitized_head (n : nat) (l : list ascii) :
  starts_with [backslash] (replace_from n pair_of_backslashes [slash] l) = true ->
  starts_with [backslash] l = true.
Proof.
  destruct n as [|n]; [trivial|]. cbn [replace_from].
  destruct (starts_with pair_of_backslashes l) eqn:E.
  - cbn [app starts_with]. discriminate.
  - destruct l as [|a l]; [discriminate|]. cbn [starts_with]. trivial.
Qed.

Lemma sanitized_absent (n : nat) (l : list ascii) :
  (length l <= n)%nat ->
  absent pair_of_backslashes (replace_from n pair_of_backslashes [slash] l).
Proof.
  revert l. induction n as [|n IH]; intros l Hn.
  - destruct l; [|simpl in Hn; lia]. now apply absent_nil.
  - cbn [replace_from]. destruct (starts_with pair_of_backslashes l) eqn:E.
    + cbn [app]. apply absent_cons; [reflexivity|]. apply IH.
      pose proof (starts_with_length _ _ E). rewrite length_skipn.
      simpl in *. lia.
    + destruct l as [|a l]; [now apply absent_nil|].
      apply absent_cons; [|apply IH; simpl in Hn; lia].
      destruct (starts_with pair_of_backslashes
                  (a :: replace_from n pair_of_backslashes [slash] l)) eqn:E';
        [|reflexivity].
      cbn [starts_with] in E, E'. apply andb_true_iff in E'.
      destruct E' as [Ea E']. rewrite Ea in E. cbn [andb] in E.
      pose proof (sanitized_head n l) as Hh. cbn [starts_with] in Hh.
      rewrite (Hh E') in E. discriminate.
Qed.

Lemma SanitizePath_win_spec (fuel : nat) (path : list ascii) :
  (length path < fuel)%nat ->
  SanitizePath_win fuel path
  = Some (replace_all pair_of_backslashes [slash] path).
Proof.
  intros Hfuel. unfold SanitizePath_win, FindAndReplace.
  apply (FindAndReplace_loop_pass pair_of_backslashes [slash] fuel [] path);
    [discriminate|assumption].
Qed.

Lemma SanitizePath_win_fixed (fuel : nat) (l : list ascii) :
  absent pair_of_backslashes l -> SanitizePath_win (S fuel) l = Some l.
Proof. apply FindAndReplace_absent. Qed.

(** [FindAndReplace] is one pass from the left: for a non-empty [findStr]
    the loop ends within [length str + 1] searches, and its result is
    determined by three equations: nothing is done to the empty string, a
    [findStr] read at the head is replaced by [replaceStr] and the pass goes
    on after it, without reading [replaceStr] again, and any other
    character is copied. *)
Theorem FindAndReplace_is_one_pass (fuel : nat)
  (str findStr replaceStr : list ascii) :
  findStr <> [] -> (length str < fuel)%nat ->
  FindAndReplace fuel str findStr replaceStr
  = Some (replace_all findStr replaceStr str)
  /\ replace_all findStr replaceStr [] = []
  /\ (forall l, replace_all findStr replaceStr (findStr ++ l)
                = replaceStr ++ replace_all findStr replaceStr l)
  /\ (forall a l, starts_with findStr (a :: l) = false ->
                  replace_all findStr replaceStr (a :: l)
                  = a :: replace_all findStr replaceStr l).
Proof.
  intros Hf Hfuel. split; [|split; [|split]].
  - exact (FindAndReplace_loop_pass findStr replaceStr fuel [] str Hf Hfuel).
  - reflexivity.
  - intros l. now apply replace_all_match.
  - intros a l. apply replace_all_copy.
Qed.

Lemma FindAndReplace_is_one_pass_witness :
  FindAndReplace 4 (list_ascii_of_string "aaa") (list_ascii_of_string "aa")
    (list_ascii_of_string "a")
  = Some (replace_all (list_ascii_of_string "aa") (list_ascii_of_string "a")
            (list_ascii_of_string "aaa"))
  /\ replace_all (list_ascii_of_string "aa") (list_ascii_of_string "a") [] = []
  /\ (forall l, replace_all (list_ascii_of_string "aa")
                  (list_ascii_of_string "a") (list_ascii_of_string "aa" ++ l)
                = list_ascii_of_string "a"
                  ++ replace_all (list_ascii_of_string "aa")
                       (list_ascii_of_string "a") l)
  /\ (forall a l, starts_with (list_ascii_of_string "aa") (a :: l) = false ->
                  replace_all (list_ascii_of_string "aa")
                    (list_ascii_of_string "a") (a :: l)
                  = a :: replace_all (list_ascii_of_string "aa")
                           (list_ascii_of_string "a") l).
Proof.
  apply (FindAndReplace_is_one_pass 4 (list_ascii_of_string "aaa")
           (list_ascii_of_string "aa") (list_ascii_of_string "a")).
  - discriminate.
  - simpl. lia.
Defined.

(** With an empty [findStr] the loop of [FindAndReplace] never ends:
    [find] succeeds at once at every position, so no number of searches
    reaches the [return], whatever the string and the replacement. *)
Theorem FindAndReplace_empty_pattern_never_returns (fuel : nat)
  (str replaceStr : list ascii) :
  FindAndReplace fuel str [] replaceStr = None.
Proof.
  unfold FindAndReplace. apply loop_empty_pattern. lia.
Qed.

(** A string in which [findStr] is read nowhere is returned unchanged,
    after a single search. *)
Theorem FindAndReplace_without_occurrence (fuel : nat)
  (str findStr replaceStr : list ascii) :
  absent findStr str ->
  FindAndReplace (S fuel) str findStr replaceStr = Some str.
Proof. apply FindAndReplace_absent. Qed.

Lemma FindAndReplace_without_occurrence_witness :
  FindAndReplace 1 (list_ascii_of_string "a/b") pair_of_backslashes [slash]
  = Some (list_ascii_of_string "a/b").
Proof.
  apply (FindAndReplace_without_occurrence 0 (list_ascii_of_string "a/b")
           pair_of_backslashes [slash]).
  intros i. do 4 (destruct i as [|i]; [reflexivity|]). reflexivity.
Defined.

(** The Windows [SanitizePath] returns, for every path, a string without
    two backslashes in a row and not longer than the path; sanitizing the
    result again changes nothing. *)
Theorem SanitizePath_win_removes_double_backslashes (fuel : nat)
  (path : list ascii) :
  (length path < fuel)%nat ->
  exists sanitized,
    SanitizePath_win fuel path = Some sanitized
    /\ absent [backslash; backslash] sanitized
    /\ (length sanitized <= length path)%nat
    /\ SanitizePath_win fuel sanitized = Some sanitized.
Proof.
  intros Hfuel. exists (replace_all pair_of_backslashes [slash] path).
  assert (Habs : absent pair_of_backslashes
                   (replace_all pair_of_backslashes [slash] path))
    by (apply sanitized_absent; lia).
  split; [now apply SanitizePath_win_spec|]. split; [exact Habs|].
  split; [apply length_replace_from; simpl; lia|].
  destruct fuel as [|fuel]; [lia|]. now apply FindAndReplace_absent.
Qed.

Lemma SanitizePath_win_removes_double_backslashes_witness :
  exists sanitized,
    SanitizePath_win 8 (backslash :: backslash :: backslash
                          :: list_ascii_of_string "a") = Some sanitized
    /\ absent [backslash; backslash] sanitized
    /\ (length sanitized
        <= length (backslash :: backslash :: backslash
                     :: list_ascii_of_string "a"))%nat
    /\ SanitizePath_win 8 sanitized = Some sanitized.
Proof.
  apply (SanitizePath_win_removes_double_backslashes 8
           (backslash :: backslash :: backslash :: list_ascii_of_string "a")).
  simpl. lia.
Defined.

(** The Windows [ResolvePath] on a path whose sanitized form names a drive
    (more than two characters, the second a colon): the sanitized form is
    returned as it is, and resolving it again returns it again.  Any other
    path is appended to the current directory and simplified; a bare drive
    such as [C:] is among these. *)
Theorem ResolvePath_win_returns_drive_paths
  (SimplifyPath : list ascii -> list ascii) (GetCurrentDirectory : list ascii)
  (fuel : nat) (path : list ascii) :
  (length path < fuel)%nat ->
  exists sanitized,
    SanitizePath_win fuel path = Some sanitized
    /\ ((2 < length sanitized)%nat -> nth 1 sanitized Ascii.zero = colon ->
        ResolvePath_win SimplifyPath GetCurrentDirectory fuel path
        = Some sanitized
        /\ ResolvePath_win SimplifyPath GetCurrentDirectory fuel sanitized
           = Some sanitized)
    /\ ((length sanitized <= 2)%nat \/ nth 1 sanitized Ascii.zero <> colon ->
        ResolvePath_win SimplifyPath GetCurrentDirectory fuel path
        = Some (SimplifyPath (GetCurrentDirectory ++ [slash] ++ sanitized))).
Proof.
  intros Hfuel. exists (replace_all pair_of_backslashes [slash] path).
  set (sanitized := replace_all pair_of_backslashes [slash] path).
  pose proof (SanitizePath_win_spec fuel path Hfuel) as E. fold sanitized in E.
  assert (Hfix : SanitizePath_win fuel sanitized = Some sanitized).
  { destruct fuel as [|fuel]; [lia|]. apply SanitizePath_win_fixed.
    apply sanitized_absent. lia. }
  split; [exact E|]. unfold ResolvePath_win. rewrite E, Hfix. split.
  - intros Hlen Hcolon. apply Nat.ltb_lt in Hlen. rewrite Hlen, Hcolon.
    unfold colon. rewrite Ascii.eqb_refl. now split.
  - intros [Hlen|Hcolon].
    + apply Nat.ltb_ge in Hlen. now rewrite Hlen.
    + apply Ascii.eqb_neq in Hcolon. rewrite Hcolon.
      now rewrite andb_false_r.
Qed.

Lemma ResolvePath_win_returns_drive_paths_witness :
  exists sanitized,
    SanitizePath_win 8 (list_ascii_of_string "C:" ++ [backslash; backslash]
                          ++ list_ascii_of_string "app") = Some sanitized
    /\ ((2 < length sanitized)%nat -> nth 1 sanitized Ascii.zero = colon ->
        ResolvePath_win (fun p => p) (list_ascii_of_string "D:/work") 8
          (list_ascii_of_string "C:" ++ [backslash; backslash]
             ++ list_ascii_of_string "app")
        = Some sanitized
        /\ ResolvePath_win (fun p => p) (list_ascii_of_string "D:/work") 8
             sanitized
           = Some sanitized)
    /\ ((length sanitized <= 2)%nat \/ nth 1 sanitized Ascii.zero <> colon ->
        ResolvePath_win (fun p => p) (list_ascii_of_string "D:/work") 8
          (list_ascii_of_string "C:" ++ [backslash; backslash]
             ++ list_ascii_of_string "app")
        = Some ((fun p => p)
                  (list_ascii_of_string "D:/work" ++ [slash] ++ sanitized))).
Proof.
  apply (ResolvePath_win_returns_drive_paths (fun p => p)
           (list_ascii_of_string "D:/work") 8
           (list_ascii_of_string "C:" ++ [backslash; backslash]
              ++ list_ascii_of_string "app")).
  simpl. lia.
Defined.

(** [ResolvePath] outside Windows returns an absolute path as it is.  When
    the current directory is absolute (or empty) and [SimplifyPath] keeps
    absolute paths absolute, every result is absolute, so that resolving a
    resolved path changes nothing. *)
Theorem ResolvePath_is_idempotent
  (SimplifyPath : list ascii -> list ascii) (GetCurrentDirectory : list ascii)
  (path : list ascii) :
  (forall q, starts_with [slash] q = true ->
             starts_with [slash] (SimplifyPath q) = true) ->
  starts_with [slash] (GetCurrentDirectory ++ [slash]) = true ->
  (starts_with [slash] path = true ->
   ResolvePath SimplifyPath GetCurrentDirectory path = path)
  /\ starts_with [slash]
       (ResolvePath SimplifyPath GetCurrentDirectory path) = true
  /\ ResolvePath SimplifyPath GetCurrentDirectory
       (ResolvePath SimplifyPath GetCurrentDirectory path)
     = ResolvePath SimplifyPath GetCurrentDirectory path.
Proof.
  intros Hsimplify Hcwd.
  assert (Habs : forall p, starts_with [slash] p = true ->
                   ResolvePath SimplifyPath GetCurrentDirectory p = p).
  { intros p Hp. destruct p as [|c p]; [discriminate|].
    cbn [starts_with] in Hp. unfold ResolvePath. cbn [length Nat.eqb negb nth].
    rewrite andb_true_r in Hp. rewrite Ascii.eqb_sym, Hp. reflexivity. }
  assert (Hjoin : forall p,
             starts_with [slash] (GetCurrentDirectory ++ [slash] ++ p) = true).
  { intros p. destruct GetCurrentDirectory as [|c cwd]; [reflexivity|].
    exact Hcwd. }
  assert (Hres : starts_with [slash]
                   (ResolvePath SimplifyPath GetCurrentDirectory path) = true).
  { unfold ResolvePath.
    destruct path as [|c p]; cbn [length Nat.eqb negb nth andb].
    - apply Hsimplify, Hjoin.
    - destruct (Ascii.eqb c slash) eqn:E.
      + cbn [starts_with]. now rewrite Ascii.eqb_sym, E.
      + apply Hsimplify, Hjoin. }
  split; [apply Habs|]. split; [exact Hres|]. now apply Habs.
Qed.

Lemma ResolvePath_is_idempotent_witness :
  (starts_with [slash] (list_ascii_of_string "lib/main.dart") = true ->
   ResolvePath (fun p => p) (list_ascii_of_string "/home")
     (list_ascii_of_string "lib/main.dart")
   = list_ascii_of_string "lib/main.dart")
  /\ starts_with [slash]
       (ResolvePath (fun p => p) (list_ascii_of_string "/home")
          (list_ascii_of_string "lib/main.dart")) = true
  /\ ResolvePath (fun p => p) (list_ascii_of_string "/home")
       (ResolvePath (fun p => p) (list_ascii_of_string "/home")
          (list_ascii_of_string "lib/main.dart"))
     = ResolvePath (fun p => p) (list_ascii_of_string "/home")
         (list_ascii_of_string "lib/main.dart").
Proof.
  apply (ResolvePath_is_idempotent (fun p => p) (list_ascii_of_string "/home")
           (list_ascii_of_string "lib/main.dart")).
  - intros q Hq. exact Hq.
  - reflexivity.
Defined.
